(** * Dragon: [dragon/vm/theano/compile/function.py]

    A shallow embedding of the graph compiler [function] and of the
    [GraphDef_*] injectors it calls, with the properties of the compiled
    graph definition proved over it.

    Python objects that the code only reads are plain values.  The objects
    it mutates in place are modelled with their aliasing: operator
    definitions live in a heap addressed by position (an expression mapping
    stores references, [copy.deepcopy] allocates, [op.input.extend] and
    [del op.input[...]] write through a reference), the workspace is a
    record threaded through every call, and the updater is returned as the
    call left it.

    Dictionaries keep their insertion order, as on the
    [sys.version_info >= (3, 0)] branches of the code.  A set is iterated
    in the order its elements were added; nothing proved here depends on
    the order in which a set is iterated. *)

From Stdlib Require Import ZArith.
From stdpp Require Import base list strings sorting pretty.

Local Open Scope string_scope.
Local Open Scope list_scope.
Local Open Scope nat_scope.

(** * Python values and dictionaries *)

(** Values carried by arguments and hyper-parameters: integers, floats (a
    float is the dyadic [mantissa * 2 ^ exponent]), strings and lists of
    them. *)
Inductive PyValue :=
| VInt (i : Z)
| VFloat (mantissa exponent : Z)
| VStr (s : string)
| VInts (l : list Z)
| VStrs (l : list string).

(** A numpy array: its dtype and its flattened data. *)
Inductive ndarray :=
| NdArray (dtype : string) (data : list PyValue).

(** [np.array([v], dtype=np.float32)] *)
Definition np_array_float32 (data : list PyValue) : ndarray :=
  NdArray "float32" data.

(** A [dict] or [OrderedDict]: the items in insertion order, one per
    key. *)
Definition dict (K V : Type) := list (K * V).

Section dict.
Context {K V : Type} `{EqDecision K}.

(** [d.get(k)] / [k in d] *)
Fixpoint dict_get (k : K) (d : dict K V) : option V :=
  match d with
  | [] => None
  | (k', v) :: d' => if decide (k = k') then Some v else dict_get k d'
  end.

(** [d[k] = v]: an existing key keeps its place, a new one goes last. *)
Fixpoint dict_set (k : K) (v : V) (d : dict K V) : dict K V :=
  match d with
  | [] => [(k, v)]
  | (k', v') :: d' =>
      if decide (k = k') then (k, v) :: d' else (k', v') :: dict_set k v d'
  end.

(** [dict(d, **e)] / [OrderedDict(d, **e)]: a copy of [d] updated with the
    items of [e] in order, so [e] wins on a shared key. *)
Definition dict_update (d e : dict K V) : dict K V :=
  fold_left (λ acc kv, dict_set kv.1 kv.2 acc) e d.

Definition dict_keys (d : dict K V) : list K := d.*1.
Definition dict_values (d : dict K V) : list V := d.*2.
End dict.

(** A [set], kept as the list of its elements without repetition. *)
Section pyset.
Context {A : Type} `{EqDecision A}.

(** [s.add(x)] *)
Definition set_add (s : list A) (x : A) : list A :=
  if decide (x ∈ s) then s else s ++ [x].

(** [s.union(t)] *)
Definition set_union (s t : list A) : list A := fold_left set_add t s.
End pyset.

(** [str.upper] on ASCII text. *)
Definition ascii_upper (c : Ascii.ascii) : Ascii.ascii :=
  let n := Ascii.nat_of_ascii c in
  if decide (97 ≤ n ∧ n ≤ 122)%nat then Ascii.ascii_of_nat (n - 32) else c.

Fixpoint upper (s : string) : string :=
  match s with
  | EmptyString => EmptyString
  | String c s' => String (ascii_upper c) (upper s')
  end.

(** * Messages of [dragon_pb2]

    Modelled from the spec: the protocol buffer messages are defined
    outside this file.  An operator definition has a type tag, ordered
    input and output names and named arguments; a graph definition has a
    name, operators, target names, gradient-target pairs, update-target
    descriptors, a device option, the debug and share flags and its
    arguments, among them the phase.  The fields below are those, under
    the names the code uses for them. *)

Record Argument := mkArgument {
  arg_name : string;
  arg_value : PyValue }.

(** Modelled from the spec: [dragon.core.utils.MakeArgument] is defined
    outside this file; it makes the argument named [k] that carries the
    value [v]. *)
Definition MakeArgument (k : string) (v : PyValue) : Argument :=
  mkArgument k v.

Record OperatorDef := mkOperatorDef {
  op_name : string;
  type : string;
  input : list string;
  output : list string;
  op_arg : list Argument }.

(** [pb.OperatorDef()] *)
Definition empty_OperatorDef : OperatorDef := mkOperatorDef "" "" [] [] [].

Definition set_input (o : OperatorDef) (i : list string) : OperatorDef :=
  mkOperatorDef (op_name o) (type o) i (output o) (op_arg o).

Record GradientTarget := mkGradientTarget {
  cost : string;
  wrt : string }.

Record UpdateTarget := mkUpdateTarget {
  ut_name : string;
  ut_type : string;
  ut_tensor : list string;
  ut_arg : list Argument }.

Record DeviceOption := mkDeviceOption {
  device_type : Z;
  do_gpu_id : Z;
  do_random_seed : Z;
  engine : string }.

Record GraphDef := mkGraphDef {
  name : string;
  op : list OperatorDef;
  target : list string;
  g_target : list GradientTarget;
  u_target : list UpdateTarget;
  arg : list Argument;
  device_option : option DeviceOption;
  debug_mode : bool;
  share_grads : bool }.

(** [pb.GraphDef()] *)
Definition empty_GraphDef : GraphDef :=
  mkGraphDef "" [] [] [] [] [] None false false.

(** * Tensors, updaters and the ambient configuration *)

(** A reference to an operator definition object. *)
Definition loc := nat.

(** Modelled from the spec: the [Tensor] class is defined outside this
    file.  A variable has a name ([tensor_name], which the code reads as
    [name] and as [_name]), the expressions that define it, a mapping from
    the index under which an operator was created to the operator object,
    a set of extra target names and a list of grad-wrt names. *)
Record Tensor := mkTensor {
  tensor_name : string;
  expressions : dict nat loc;
  extra_targets : list string;
  grad_wrts : list string }.

(** The value side of a [givens] item: a [Tensor], an [np.ndarray], or an
    object of another type, which the code skips. *)
Inductive GivenValue :=
| GTensor (t : Tensor)
| GArray (a : ndarray)
| GOther.

(** Modelled from the spec: the updater class is defined outside this
    file.  An updater has a prefix, extra shared arguments, hyper-parameter
    values by name, an ordered list of tuples of a tensor group and its
    own arguments, and an update type. *)
Record Updater := mkUpdater {
  _prefix : string;
  _extra_kwargs : dict string PyValue;
  _hyper_params : dict string PyValue;
  _tuples : list (list string * dict string PyValue);
  _type : string }.

(** [dragon.config.option], the entries the code reads. *)
Record config_option := mkOption {
  opt_device : string;
  opt_gpu_id : Z;
  opt_random_seed : Z;
  opt_use_cudnn : bool;
  opt_debug_mode : bool;
  opt_share_grads : bool }.

(** [dragon.core.mpi], the functions the code calls; they are read as the
    values they return. *)
Record mpi_module := mkMpi {
  Is_Init : bool;
  AllowParallel : Z * list Z;
  GetParallelMode : PyValue;
  CreateGroup : Z → list Z → PyValue * PyValue }.

(** The globals read during a compilation: the configuration, the phase
    scope of [dragon.core.scope] and the state of MPI. *)
Record Ambient := mkAmbient {
  option_ : config_option;
  PHASE_SCOPE : string;
  mpi : mpi_module }.

(** * The workspace and the interpreter state *)

(** The two positional arguments of a [ws.FeedTensor] call. *)
Inductive FeedArg :=
| FName (s : string)
| FArray (a : ndarray).

(** The interpreter state: the operator objects, the workspace (graph
    counter, registered graphs, [FeedTensor] calls) and the name counters
    of [dragon.core.scope]. *)
Record State := mkState {
  heap : list OperatorDef;
  CURRENT_GRAPH_IDX : nat;
  graphs : list GraphDef;
  feeds : list (FeedArg * FeedArg);
  operator_idx : nat;
  tensor_idx : nat }.

Inductive PyError :=
| RuntimeError (msg : string)
| KeyError (key : string)
| IndexError.

(** Computations that read and write the state and may raise. *)
Definition M (A : Type) : Type := State → (PyError + A) * State.

Definition ret {A} (a : A) : M A := λ s, (inr a, s).
Definition raise {A} (e : PyError) : M A := λ s, (inl e, s).
Definition bind {A B} (m : M A) (k : A → M B) : M B :=
  λ s, match m s with
       | (inl e, s') => (inl e, s')
       | (inr a, s') => k a s'
       end.
Definition get_state : M State := λ s, (inr s, s).
Definition lift {A} (r : PyError + A) : M A := λ s, (r, s).

Notation "'do' x <- m ; k" := (bind m (λ x, k))
  (at level 10, x name, m at level 100, k at level 200).
Notation "'do' ' p <- m ; k" := (bind m (λ x, match x with p => k end))
  (at level 10, p pattern, m at level 100, k at level 200).
Notation "m ;; k" := (bind m (λ _, k))
  (at level 100, k at level 200, right associativity).

(** The object a reference points to. *)
Definition deref (h : list OperatorDef) (l : loc) : OperatorDef :=
  default empty_OperatorDef (h !! l).

Definition with_heap (s : State) (h : list OperatorDef) : State :=
  mkState h (CURRENT_GRAPH_IDX s) (graphs s) (feeds s)
          (operator_idx s) (tensor_idx s).

Definition set_heap (h : list OperatorDef) : M unit := λ s,
  (inr tt, with_heap s h).

(** [ws.CURRENT_GRAPH_IDX += 1], giving the value before. *)
Definition next_graph_idx : M nat := λ s,
  (inr (CURRENT_GRAPH_IDX s),
   mkState (heap s) (S (CURRENT_GRAPH_IDX s)) (graphs s) (feeds s)
           (operator_idx s) (tensor_idx s)).

(** Modelled from the spec: [ws.CreateGraph(graph_def)] is defined outside
    this file; it registers the graph definition with the runtime. *)
Definition CreateGraph (g : GraphDef) : M unit := λ s,
  (inr tt, mkState (heap s) (CURRENT_GRAPH_IDX s) (graphs s ++ [g]) (feeds s)
                   (operator_idx s) (tensor_idx s)).

(** Modelled from the spec: [ws.FeedTensor] is defined outside this file;
    [feed(name, array)] registers an array under a name.  A call is
    recorded with its two positional arguments as the code passes them. *)
Definition FeedTensor (a b : FeedArg) : M unit := λ s,
  (inr tt, mkState (heap s) (CURRENT_GRAPH_IDX s) (graphs s)
                   (feeds s ++ [(a, b)]) (operator_idx s) (tensor_idx s)).

(** [for x in xs: acc = f(acc, x)] with effects. *)
Fixpoint foldM {A B} (f : A → B → M A) (acc : A) (xs : list B) : M A :=
  match xs with
  | [] => ret acc
  | x :: xs' => do acc' <- f acc x; foldM f acc' xs'
  end.

(** * Setters of [pb.GraphDef] *)

Definition set_name (g : GraphDef) (n : string) : GraphDef :=
  mkGraphDef n (op g) (target g) (g_target g) (u_target g) (arg g)
             (device_option g) (debug_mode g) (share_grads g).
Definition extend_op (g : GraphDef) (l : list OperatorDef) : GraphDef :=
  mkGraphDef (name g) (op g ++ l) (target g) (g_target g) (u_target g) (arg g)
             (device_option g) (debug_mode g) (share_grads g).
Definition extend_target (g : GraphDef) (l : list string) : GraphDef :=
  mkGraphDef (name g) (op g) (target g ++ l) (g_target g) (u_target g) (arg g)
             (device_option g) (debug_mode g) (share_grads g).
Definition extend_g_target (g : GraphDef) (l : list GradientTarget) : GraphDef :=
  mkGraphDef (name g) (op g) (target g) (g_target g ++ l) (u_target g) (arg g)
             (device_option g) (debug_mode g) (share_grads g).
Definition extend_u_target (g : GraphDef) (l : list UpdateTarget) : GraphDef :=
  mkGraphDef (name g) (op g) (target g) (g_target g) (u_target g ++ l) (arg g)
             (device_option g) (debug_mode g) (share_grads g).
Definition extend_arg (g : GraphDef) (l : list Argument) : GraphDef :=
  mkGraphDef (name g) (op g) (target g) (g_target g) (u_target g) (arg g ++ l)
             (device_option g) (debug_mode g) (share_grads g).
Definition set_device_option (g : GraphDef) (d : DeviceOption) : GraphDef :=
  mkGraphDef (name g) (op g) (target g) (g_target g) (u_target g) (arg g)
             (Some d) (debug_mode g) (share_grads g).
Definition set_opt (g : GraphDef) (debug share : bool) : GraphDef :=
  mkGraphDef (name g) (op g) (target g) (g_target g) (u_target g) (arg g)
             (device_option g) debug share.

(** * The compiler *)

(** What [function] returns: the closure
    [lambda *args, **kwargs: ws.RunGraph(graph_def.name, (inputs, args),
    outputs, **kwargs)], given by the values it captures. *)
Record Callable := mkCallable {
  run_graph : string;
  run_inputs : list Tensor;
  run_outputs : list Tensor }.

(** An argument that is [None], a single tensor or a list of tensors. *)
Inductive TensorArg :=
| ArgNone
| ArgTensor (t : Tensor)
| ArgList (l : list Tensor).

(** [if not isinstance(x, list): x = [] if x is None else [x]] *)
Definition as_list (x : TensorArg) : list Tensor :=
  match x with
  | ArgNone => []
  | ArgTensor t => [t]
  | ArgList l => l
  end.

Section compile.
(** Collaborators defined outside this file.  [GetOperatorName] and
    [GetTensorName] of [dragon.core.scope] draw from a counter and name
    what they draw; [GraphGradientMaker.Make] reads the operators it is
    given and returns the forward and the backward list. *)
Variable operator_name_of : nat → string.
Variable tensor_name_of : nat → string.
Variable Make :
  list OperatorDef → list string → list OperatorDef * list OperatorDef.
Variable env : Ambient.

(** Modelled from the spec: [GetOperatorName()] gives a freshly generated
    operator name, here with the index drawn for it. *)
Definition GetOperatorName : M (nat * string) := λ s,
  (inr (operator_idx s, operator_name_of (operator_idx s)),
   mkState (heap s) (CURRENT_GRAPH_IDX s) (graphs s) (feeds s)
           (S (operator_idx s)) (tensor_idx s)).

(** Modelled from the spec: [GetTensorName()] gives a fresh name. *)
Definition GetTensorName : M string := λ s,
  (inr (tensor_name_of (tensor_idx s)),
   mkState (heap s) (CURRENT_GRAPH_IDX s) (graphs s) (feeds s)
           (operator_idx s) (S (tensor_idx s))).

(** ** [GraphDef_Grad] *)

(** The set of (cost, wrt) pairs over all targets. *)
Definition all_pairs (targets : list Tensor) : list (string * string) :=
  fold_left
    (λ pairs target,
       fold_left (λ pairs wrt, set_add pairs (tensor_name target, wrt))
                 (grad_wrts target) pairs)
    targets [].

Definition GraphDef_Grad (graph_def : GraphDef) (targets : list Tensor)
  : GraphDef :=
  fold_left
    (λ g pair, extend_g_target g [mkGradientTarget pair.1 pair.2])
    (all_pairs targets) graph_def.

(** ** [GraphDef_Phase] *)

(** The [for target in targets] loop with its [break]. *)
Fixpoint phase_of_targets (phase : string) (targets : list Tensor) : string :=
  match targets with
  | [] => phase
  | target :: targets' =>
      if decide (0 < length (grad_wrts target)) then "TRAIN"
      else phase_of_targets phase targets'
  end.

Definition GraphDef_Phase (graph_def : GraphDef) (targets : list Tensor)
  : GraphDef :=
  let phase := "TEST" in
  let phase :=
    if decide (PHASE_SCOPE env ≠ "") then upper (PHASE_SCOPE env)
    else phase_of_targets phase targets in
  extend_arg graph_def [MakeArgument "phase" (VStr phase)].

(** ** [GraphDef_Update] *)

(** The data-parallel arguments, empty unless a group allows this rank. *)
Definition parallel_arguments : PyError + dict string PyValue :=
  let '(idx, group) := AllowParallel (mpi env) in
  if decide (idx ≠ (-1)%Z) then
    let d := dict_set "parallel_mode" (GetParallelMode (mpi env)) [] in
    match group with
    | [] => inl IndexError
    | root :: _ =>
        let '(comm, grp) := CreateGroup (mpi env) root group in
        let d := dict_set "comm" comm d in
        let d := dict_set "group" grp d in
        inr (dict_set "root" (VInt root) d)
    end
  else inr [].

(** One argument message per item of [kwargs]. *)
Definition make_arguments (kwargs : dict string PyValue) : list Argument :=
  map (λ kv, MakeArgument kv.1 kv.2) kwargs.

(** The body of [for tuple in updater._tuples]. *)
Definition update_step (ty : string) (extra_arguments : dict string PyValue)
    (graph_def : GraphDef) (tuple : list string * dict string PyValue)
  : M GraphDef :=
  let tensors := tuple.1 in
  let arguments := tuple.2 in
  let kwargs := dict_update arguments extra_arguments in
  do '(_, nm) <- GetOperatorName;
  let u_target := mkUpdateTarget nm ty tensors (make_arguments kwargs) in
  ret (extend_u_target graph_def [u_target]).

Definition GraphDef_Update (graph_def : GraphDef) (updater : option Updater)
  : M (GraphDef * option Updater) :=
  match updater with
  | None => ret (graph_def, None)
  | Some u =>
      let prefix := name graph_def +:+ "_" in
      let extra_arguments :=
        dict_set "domain" (VStr prefix) (_extra_kwargs u) in
      let u' := mkUpdater prefix extra_arguments (_hyper_params u)
                          (_tuples u) (_type u) in
      foldM (λ _ kv, FeedTensor (FName (prefix +:+ kv.1))
                                (FArray (np_array_float32 [kv.2])))
            tt (_hyper_params u) ;;
      do graph_def <-
        (if Is_Init (mpi env) then
           do pargs <- lift parallel_arguments;
           ret (extend_arg graph_def (make_arguments pargs))
         else ret graph_def);
      do graph_def <-
        foldM (update_step (_type u) extra_arguments) graph_def (_tuples u);
      ret (graph_def, Some u')
  end.

(** ** [GraphDef_Opt] and [GraphDef_Device] *)

Definition GraphDef_Opt (graph_def : GraphDef) : GraphDef :=
  set_opt graph_def (opt_debug_mode (option_ env))
          (opt_share_grads (option_ env)).

(** [supports = {'CPU': 0, 'CUDA': 1}] *)
Definition supports : dict string Z := [("CPU", 0%Z); ("CUDA", 1%Z)].

Definition GraphDef_Device (graph_def : GraphDef) : PyError + GraphDef :=
  let option := option_ env in
  if decide (opt_device option ≠ "None") then
    match dict_get (opt_device option) supports with
    | None => inl (KeyError (opt_device option))
    | Some ty =>
        inr (set_device_option graph_def
               (mkDeviceOption ty (opt_gpu_id option)
                  (opt_random_seed option)
                  (if opt_use_cudnn option then "CUDNN" else "")))
    end
  else inr graph_def.

(** ** The forward operators *)

(** What the loop over [outputs] accumulates. *)
Record Extracted := mkExtracted {
  ex_graph_def : GraphDef;
  all_exprs : dict nat loc;
  all_extra_targets : list string;
  existing_grads : bool }.

(** The body of [for output in outputs]. *)
Definition extract_step (acc : Extracted) (output : Tensor) : Extracted :=
  mkExtracted
    (extend_target (ex_graph_def acc) [tensor_name output])
    (dict_update (all_exprs acc) (expressions output))
    (set_union (all_extra_targets acc) (extra_targets output))
    (if decide (0 < length (grad_wrts output)) then true
     else existing_grads acc).

Definition extract (graph_def : GraphDef) (outputs : list Tensor)
  : Extracted :=
  fold_left extract_step outputs (mkExtracted graph_def [] [] false).

(** The order [sorted] compares the items in: that of their keys. *)
Definition key_le (x y : nat * loc) : Prop := (x.1 ≤ y.1)%nat.

Global Instance key_le_dec : RelDecision key_le.
Proof. intros x y. unfold key_le. apply _. Defined.

(** [sorted(all_exprs.items(), key=lambda d: d[0])].  The keys of a
    dictionary differ, so the sorted list does not depend on the sorting
    algorithm. *)
Definition sorted_items (d : dict nat loc) : list (nat * loc) :=
  merge_sort key_le d.

(** [copy.deepcopy] of a list of operators: every object is copied once,
    and a second reference to it becomes a reference to its copy. *)
Fixpoint deepcopy_refs (memo : dict loc loc) (h : list OperatorDef)
    (ls : list loc) : list OperatorDef * list loc :=
  match ls with
  | [] => (h, [])
  | l :: ls' =>
      match dict_get l memo with
      | Some c =>
          let '(h', cs) := deepcopy_refs memo h ls' in (h', c :: cs)
      | None =>
          let c := length h in
          let '(h', cs) :=
            deepcopy_refs (dict_set l c memo) (h ++ [deref h l]) ls' in
          (h', c :: cs)
      end
  end.

Definition deepcopy (ls : list loc) : M (list loc) :=
  do s <- get_state;
  let '(h, cs) := deepcopy_refs [] (heap s) ls in
  set_heap h ;; ret cs.

(** ** Givens *)

(** [name_dict[input] if input in name_dict else input] *)
Definition substitute (name_dict : dict string string) (i : string)
  : string :=
  match dict_get i name_dict with
  | Some n => n
  | None => i
  end.

(** [op.input.extend([...]); del op.input[:int(len(op.input)/2)]] *)
Definition rewrite_input (name_dict : dict string string) (o : OperatorDef)
  : OperatorDef :=
  let extended := input o ++ map (substitute name_dict) (input o) in
  set_input o (drop (length extended / 2) extended).

(** [for op in forward_ops], writing through each reference. *)
Definition rewrite_ops (name_dict : dict string string)
    (forward_ops : list loc) (h : list OperatorDef) : list OperatorDef :=
  fold_left (λ h l, <[l := rewrite_input name_dict (deref h l)]> h)
            forward_ops h.

(** The body of [for old_tenosr, new_tensor in givens.items()]. *)
Definition givens_step (acc : dict string string * dict nat loc)
    (item : Tensor * GivenValue) : M (dict string string * dict nat loc) :=
  let '(name_dict, external_input_exprs) := acc in
  let old_tenosr := item.1 in
  match item.2 with
  | GTensor new_tensor =>
      ret (dict_set (tensor_name old_tenosr) (tensor_name new_tensor)
                    name_dict,
           dict_update external_input_exprs (expressions new_tensor))
  | GArray new_tensor =>
      do n <- GetTensorName;
      FeedTensor (FArray new_tensor) (FName n) ;;
      ret acc
  | GOther => ret acc
  end.

Definition handle_givens (givens : option (list (Tensor * GivenValue)))
    (forward_ops : list loc) : M (list loc) :=
  match givens with
  | None => ret forward_ops
  | Some items =>
      do '(name_dict, external_input_exprs) <- foldM givens_step ([], []) items;
      let external_input_ops := dict_values external_input_exprs in
      do s <- get_state;
      set_heap (rewrite_ops name_dict forward_ops (heap s)) ;;
      ret (external_input_ops ++ forward_ops)
  end.

(** ** [function] *)

(** The [if len(outputs) > 0: ... elif updater is not None: ...] block. *)
Definition inject (graph_def : GraphDef) (outputs : list Tensor)
    (updater : option Updater) : M (GraphDef * option Updater) :=
  if bool_decide (0 < length outputs) then
    do graph_def <- lift (GraphDef_Device graph_def);
    let graph_def := GraphDef_Opt graph_def in
    let graph_def := GraphDef_Grad graph_def outputs in
    ret (GraphDef_Phase graph_def outputs, updater)
  else if bool_decide (is_Some updater) then
    do graph_def <- lift (GraphDef_Device graph_def);
    let graph_def := GraphDef_Opt graph_def in
    GraphDef_Update graph_def updater
  else ret (graph_def, updater).

(** The message of the [RuntimeError] raised for outputs with an updater. *)
Definition conflict_message : string :=
  "You can specific either outputs or updater, not both.".

(** [function(inputs, outputs, givens, updater)].  The operators are
    handled by reference up to the givens stage and read back as values
    where the code hands them to [GraphGradientMaker.Make] and copies them
    into [graph_def.op].  The result is the callable with the updater as
    the call leaves it. *)
Definition function (inputs outputs : TensorArg)
    (givens : option (list (Tensor * GivenValue)))
    (updater : option Updater) : M (Callable * option Updater) :=
  let inputs := as_list inputs in
  let outputs := as_list outputs in
  if bool_decide (0 < length outputs) && bool_decide (is_Some updater)
  then raise (RuntimeError conflict_message)
  else
    do idx <- next_graph_idx;
    let graph_def := set_name empty_GraphDef ("Graph_" +:+ pretty idx) in
    let ex := extract graph_def outputs in
    let graph_def := extend_target (ex_graph_def ex) (all_extra_targets ex) in
    do forward_ops <- deepcopy (dict_values (sorted_items (all_exprs ex)));
    do forward_ops <- handle_givens givens forward_ops;
    do s <- get_state;
    let forward_ops := map (deref (heap s)) forward_ops in
    let '(forward_ops, grad_ops) :=
      if existing_grads ex
      then Make forward_ops (map tensor_name outputs)
      else (forward_ops, []) in
    let graph_def := extend_op graph_def (forward_ops ++ grad_ops) in
    do '(graph_def, updater) <- inject graph_def outputs updater;
    CreateGraph graph_def ;;
    ret (mkCallable (name graph_def) inputs outputs, updater).
End compile.

(** * Notions used in the statements *)

(** The name substitution and the external-input expressions that the
    givens loop has built once it has gone through [items]. *)
Definition name_dict_of (items : list (Tensor * GivenValue))
    (name_dict : dict string string) : dict string string :=
  fold_left
    (λ nd item,
       match item.2 with
       | GTensor t => dict_set (tensor_name item.1) (tensor_name t) nd
       | _ => nd
       end) items name_dict.

Definition external_input_exprs_of (items : list (Tensor * GivenValue))
    (exprs : dict nat loc) : dict nat loc :=
  fold_left
    (λ d item,
       match item.2 with
       | GTensor t => dict_update d (expressions t)
       | _ => d
       end) items exprs.

(** The operator references of the requested outputs, merged and put in
    key order. *)
Definition merged (outputs : list Tensor) (d : dict nat loc) : dict nat loc :=
  fold_left (λ d t, dict_update d (expressions t)) outputs d.

Definition merged_refs (outputs : list Tensor) : list loc :=
  dict_values (sorted_items (merged outputs [])).

(** The operators behind [ls] in heap [h], each rewritten as often as it
    is referenced. *)
Definition rewritten (name_dict : dict string string) (h : list OperatorDef)
    (ls : list loc) : list OperatorDef :=
  map (λ l, Nat.iter (count_occ Nat.eq_dec ls l) (rewrite_input name_dict)
                     (deref h l)) ls.

(** The forward operators of a compilation started in heap [h]. *)
Definition compiled_forward (outputs : list Tensor)
    (givens : option (list (Tensor * GivenValue))) (h : list OperatorDef)
  : list OperatorDef :=
  match givens with
  | None => map (deref h) (merged_refs outputs)
  | Some items =>
      map (deref h) (dict_values (external_input_exprs_of items [])) ++
      rewritten (name_dict_of items []) h (merged_refs outputs)
  end.

(** The heap after the copy and the givens rewriting, and the forward
    operators then read back from it. *)
Definition forward_heap (givens : option (list (Tensor * GivenValue)))
    (h : list OperatorDef) (ls : list loc) : list OperatorDef :=
  let '(h1, cs) := deepcopy_refs [] h ls in
  match givens with
  | None => h1
  | Some items => rewrite_ops (name_dict_of items []) cs h1
  end.

Definition forward_values (givens : option (list (Tensor * GivenValue)))
    (h : list OperatorDef) (ls : list loc) : list OperatorDef :=
  map (deref (forward_heap givens h ls))
      match givens with
      | None => (deepcopy_refs [] h ls).2
      | Some items =>
          dict_values (external_input_exprs_of items []) ++
          (deepcopy_refs [] h ls).2
      end.

(** Every operator reference held by an output or by a replacement tensor
    points into the heap. *)
Definition refs_valid (h : list OperatorDef) (outputs : list Tensor)
    (givens : option (list (Tensor * GivenValue))) : Prop :=
  (∀ t k l, t ∈ outputs → (k, l) ∈ expressions t → l < length h) ∧
  (∀ items a t k l, givens = Some items → (a, GTensor t) ∈ items →
                    (k, l) ∈ expressions t → l < length h).

(** The device option names no device or a supported one. *)
Definition device_supported (env : Ambient) : Prop :=
  opt_device (option_ env) ∈ ["None"; "CPU"; "CUDA"].

(** A group that allows this rank has a root. *)
Definition parallel_ready (env : Ambient) : Prop :=
  Is_Init (mpi env) = true → (AllowParallel (mpi env)).1 ≠ (-1)%Z →
  (AllowParallel (mpi env)).2 ≠ [].

(** The memo of a copy in progress: copies above the base heap [h0], each
    copy equal to its original, no copy shared. *)
Definition memo_ok (h0 h : list OperatorDef) (memo : dict loc loc) : Prop :=
  (∀ l c, dict_get l memo = Some c →
          length h0 ≤ c < length h ∧ deref h c = deref h0 l) ∧
  (∀ l1 l2 c, dict_get l1 memo = Some c → dict_get l2 memo = Some c →
              l1 = l2).

(** What a stage leaves alone: the operator heap, the registered graphs
    and the graph counter. *)
Definition frame (s s' : State) : Prop :=
  heap s' = heap s ∧ graphs s' = graphs s ∧
  CURRENT_GRAPH_IDX s' = CURRENT_GRAPH_IDX s.

Definition stable {A} (m : M A) : Prop := ∀ s, frame s (m s).2.

Section assembled.
Variable Make :
  list OperatorDef → list string → list OperatorDef * list OperatorDef.

(** The graph definition as it stands before the metadata is injected,
    for the graph index [idx] and the forward operators [fwd]. *)
Definition assembled (idx : nat) (outputs : list Tensor)
    (fwd : list OperatorDef) : GraphDef :=
  let ex := extract (set_name empty_GraphDef ("Graph_" +:+ pretty idx))
                    outputs in
  let '(forward_ops, grad_ops) :=
    if existing_grads ex then Make fwd (map tensor_name outputs)
    else (fwd, []) in
  extend_op (extend_target (ex_graph_def ex) (all_extra_targets ex))
            (forward_ops ++ grad_ops).
End assembled.

Section update_targets.
Variable operator_name_of : nat → string.

(** The update targets emitted for [tuples] when the operator counter
    stands at [n]. *)
Fixpoint update_targets (ty : string) (extra_arguments : dict string PyValue)
    (n : nat) (tuples : list (list string * dict string PyValue))
  : list UpdateTarget :=
  match tuples with
  | [] => []
  | tuple :: tuples' =>
      mkUpdateTarget (operator_name_of n) ty tuple.1
        (make_arguments (dict_update tuple.2 extra_arguments)) ::
      update_targets ty extra_arguments (S n) tuples'
  end.
End update_targets.

(** The phase a compilation of [outputs] is tagged with. *)
Definition phase_of (env : Ambient) (outputs : list Tensor) : string :=
  if decide (PHASE_SCOPE env ≠ "") then upper (PHASE_SCOPE env)
  else if existsb (λ t, bool_decide (0 < length (grad_wrts t))) outputs
       then "TRAIN" else "TEST".

(** The operators of the graph once the gradient maker has been asked, or
    not, for the backward pass over the forward operators [fwd]. *)
Definition with_grads
    (Make : list OperatorDef → list string →
            list OperatorDef * list OperatorDef)
    (outputs : list Tensor) (fwd : list OperatorDef) : list OperatorDef :=
  if existsb (λ t, bool_decide (0 < length (grad_wrts t))) outputs
  then (Make fwd (map tensor_name outputs)).1 ++
       (Make fwd (map tensor_name outputs)).2
  else fwd.

(** The registered graphs are named after graph indices already used, no
    two after the same. *)
Definition graph_names_ok (s : State) : Prop :=
  NoDup (name <$> graphs s) ∧
  ∀ g, g ∈ graphs s →
       ∃ i, i < CURRENT_GRAPH_IDX s ∧ name g = "Graph_" +:+ pretty i.

(** The arrays among the replacements of a givens mapping, in order. *)
Definition given_arrays (items : list (Tensor * GivenValue)) : list ndarray :=
  omap (λ item, match item.2 with GArray a => Some a | _ => None end) items.

(** The [FeedTensor] calls of the givens stage when the tensor counter
    stands at [n], and those of the update injector for the hyper-parameters
    of an updater under [prefix]. *)
Definition given_feeds (tensor_name_of : nat → string) (n : nat)
    (givens : option (list (Tensor * GivenValue)))
  : list (FeedArg * FeedArg) :=
  match givens with
  | None => []
  | Some items =>
      imap (λ i a, (FArray a, FName (tensor_name_of (n + i))))
           (given_arrays items)
  end.

Definition hyper_feeds (prefix : string) (u : Updater)
  : list (FeedArg * FeedArg) :=
  map (λ kv, (FName (prefix +:+ kv.1), FArray (np_array_float32 [kv.2])))
      (_hyper_params u).

(** Two outcomes that agree but for the inputs of the callable. *)
Definition same_but_inputs (inputs1 inputs2 : list Tensor)
    (r1 r2 : (PyError + Callable * option Updater) * State) : Prop :=
  r1.2 = r2.2 ∧
  match r1.1, r2.1 with
  | inl e1, inl e2 => e1 = e2
  | inr (c1, u1), inr (c2, u2) =>
      run_graph c1 = run_graph c2 ∧ run_outputs c1 = run_outputs c2 ∧
      run_inputs c1 = inputs1 ∧ run_inputs c2 = inputs2 ∧ u1 = u2
  | _, _ => False
  end.

(** The newest graph registered with the workspace. *)
Definition compiled_graph (s : State) : option GraphDef := last (graphs s).

(** * A small expression graph

    [b = a * 2], [c = a + x] and [y = c * a], with the operators created in
    that order, an updater with one tuple, and collaborators that number
    the names they hand out. *)

Definition demo_heap : list OperatorDef :=
  [ mkOperatorDef "Op_0" "Scale" ["a"] ["b"] [];
    mkOperatorDef "Op_1" "Add" ["a"; "x"] ["c"] [];
    mkOperatorDef "Op_2" "Mul" ["c"; "a"] ["y"] [] ].

Definition demo_a : Tensor := mkTensor "a" [] [] [].
Definition demo_b : Tensor := mkTensor "b" [(0, 0)] [] [].
Definition demo_c : Tensor := mkTensor "c" [(1, 1)] [] [].
Definition demo_y : Tensor := mkTensor "y" [(2, 2); (1, 1)] [] [].

Definition demo_state : State := mkState demo_heap 0 [] [] 3 0.

Definition demo_env : Ambient :=
  mkAmbient (mkOption "None" 0 0 false false false) ""
            (mkMpi false ((-1)%Z, []) (VStr "") (λ _ _, (VInt 0, VInt 0))).

Definition demo_operator_name (n : nat) : string := "Op_" +:+ pretty n.
Definition demo_tensor_name (n : nat) : string := "Tensor_" +:+ pretty n.

Definition demo_Make (ops : list OperatorDef) (targets : list string)
  : list OperatorDef * list OperatorDef := (ops, []).

Definition demo_updater : Updater :=
  mkUpdater "" [("lr", VInt 2)] [("base_lr", VFloat 1 (-4))]
            [(["w"; "w_grad"], [("lr", VInt 1); ("decay", VInt 5)])]
            "SGDUpdate".

Definition demo_array : ndarray := NdArray "float32" [VFloat 3 0].

(** A cost with gradient requests (one of them made twice) and extra
    targets, a second cost sharing one of each, and configurations with a
    CUDA device, with a device the code does not know, and with MPI
    initialised for a group of two ranks or for an empty group. *)

Definition demo_loss : Tensor :=
  mkTensor "loss" [(2, 2); (1, 1)] ["mask"; "count"] ["w"; "b"; "w"].

Definition demo_aux : Tensor :=
  mkTensor "aux" [(0, 0)] ["count"] ["w"].

Definition demo_env_cuda : Ambient :=
  mkAmbient (mkOption "CUDA" 1 3 true true false) "test"
            (mkMpi false ((-1)%Z, []) (VStr "") (λ _ _, (VInt 0, VInt 0))).

Definition demo_env_unknown : Ambient :=
  mkAmbient (mkOption "TPU" 0 0 false false false) ""
            (mkMpi false ((-1)%Z, []) (VStr "") (λ _ _, (VInt 0, VInt 0))).

Definition demo_env_mpi : Ambient :=
  mkAmbient (mkOption "None" 0 0 false false false) ""
            (mkMpi true (0%Z, [2%Z; 5%Z]) (VStr "MPI")
                   (λ root incl, (VInt (root + 100), VInts incl))).

Definition demo_env_no_root : Ambient :=
  mkAmbient (mkOption "None" 0 0 false false false) ""
            (mkMpi true (0%Z, []) (VStr "MPI")
                   (λ root incl, (VInt (root + 100), VInts incl))).

(** * Dictionaries *)

Section dict_facts.
Context {K V : Type} `{EqDecision K}.
Implicit Types (d e : dict K V) (k : K) (v : V).

Lemma dict_get_set_eq k v d : dict_get k (dict_set k v d) = Some v.
Proof.
  induction d as [|[k' v'] d IH]; simpl.
  - by rewrite decide_True.
  - destruct (decide (k = k')) as [->|Hne]; simpl.
    + by rewrite decide_True.
    + by rewrite decide_False.
Qed.

Lemma dict_get_set_ne k k' v d :
  k ≠ k' → dict_get k' (dict_set k v d) = dict_get k' d.
Proof.
  intros Hne. induction d as [|[k0 v0] d IH]; simpl.
  - by rewrite decide_False.
  - destruct (decide (k = k0)) as [->|Hne0]; simpl.
    + by rewrite !decide_False.
    + by rewrite IH.
Qed.

Lemma dict_get_None k d : dict_get k d = None ↔ k ∉ dict_keys d.
Proof.
  unfold dict_keys. induction d as [|[k' v'] d IH]; simpl.
  - split; [intros _; apply not_elem_of_nil | done].
  - rewrite not_elem_of_cons. destruct (decide (k = k')) as [->|Hne].
    + split; [done|]. intros [Hk _]. done.
    + rewrite IH. tauto.
Qed.

Lemma dict_get_Some_elem k v d : dict_get k d = Some v → (k, v) ∈ d.
Proof.
  induction d as [|[k' v'] d IH]; simpl; [done|].
  destruct (decide (k = k')) as [->|Hne].
  - intros [= ->]. apply list_elem_of_here.
  - intros Hg. apply list_elem_of_further. auto.
Qed.

Lemma dict_keys_set k v d k' :
  k' ∈ dict_keys (dict_set k v d) ↔ k' = k ∨ k' ∈ dict_keys d.
Proof.
  unfold dict_keys. induction d as [|[k0 v0] d IH]; simpl.
  - rewrite list_elem_of_singleton. rewrite elem_of_nil. tauto.
  - destruct (decide (k = k0)) as [->|Hne]; simpl.
    + rewrite !elem_of_cons. tauto.
    + rewrite !elem_of_cons, IH. tauto.
Qed.

Lemma dict_set_NoDup k v d :
  NoDup (dict_keys d) → NoDup (dict_keys (dict_set k v d)).
Proof.
  unfold dict_keys. induction d as [|[k0 v0] d IH]; simpl.
  - intros _. apply NoDup_singleton.
  - rewrite NoDup_cons. intros [Hk Hnd].
    destruct (decide (k = k0)) as [->|Hne]; simpl.
    + by apply NoDup_cons.
    + apply NoDup_cons. split; [|auto].
      intros Hin. apply (dict_keys_set k v d k0) in Hin.
      destruct Hin as [->|Hin]; done.
Qed.

Lemma dict_set_elem k v d k' v' :
  (k', v') ∈ dict_set k v d → (k', v') = (k, v) ∨ (k', v') ∈ d.
Proof.
  induction d as [|[k0 v0] d IH]; simpl.
  - rewrite list_elem_of_singleton. auto.
  - destruct (decide (k = k0)) as [->|Hne]; rewrite !elem_of_cons.
    + tauto.
    + intros [?|Hin]; [tauto|]. apply IH in Hin. tauto.
Qed.

Lemma dict_update_keys d e k :
  k ∈ dict_keys (dict_update d e) ↔ k ∈ dict_keys d ∨ k ∈ dict_keys e.
Proof.
  unfold dict_update. revert d.
  induction e as [|[k0 v0] e IH]; intros d; simpl.
  - change (dict_keys (@nil (K * V))) with (@nil K).
    rewrite elem_of_nil. tauto.
  - rewrite IH, dict_keys_set.
    change (dict_keys ((k0, v0) :: e)) with (k0 :: dict_keys e).
    rewrite elem_of_cons. tauto.
Qed.

Lemma dict_update_NoDup d e :
  NoDup (dict_keys d) → NoDup (dict_keys (dict_update d e)).
Proof.
  unfold dict_update. revert d.
  induction e as [|[k0 v0] e IH]; intros d Hnd; simpl; [done|].
  apply IH. by apply dict_set_NoDup.
Qed.

Lemma dict_update_elem d e k v :
  (k, v) ∈ dict_update d e → (k, v) ∈ d ∨ (k, v) ∈ e.
Proof.
  unfold dict_update. revert d.
  induction e as [|[k0 v0] e IH]; intros d; simpl; [auto|].
  intros Hin. apply IH in Hin. rewrite elem_of_cons.
  destruct Hin as [Hin|Hin]; [|auto].
  apply dict_set_elem in Hin. tauto.
Qed.

(** On a shared key the second dictionary wins; all other keys keep the
    value of the first. *)
Lemma dict_get_update d e k :
  NoDup (dict_keys e) →
  dict_get k (dict_update d e) =
    match dict_get k e with
    | Some v => Some v
    | None => dict_get k d
    end.
Proof.
  unfold dict_update, dict_keys. revert d.
  induction e as [|[k0 v0] e IH]; intros d; simpl; [done|].
  rewrite NoDup_cons. intros [Hk Hnd]. rewrite IH by done.
  destruct (decide (k = k0)) as [->|Hne].
  - assert (dict_get k0 e = None) as ->.
    { apply dict_get_None. done. }
    apply dict_get_set_eq.
  - rewrite dict_get_set_ne by done. done.
Qed.

Lemma dict_values_elem d v : v ∈ dict_values d ↔ ∃ k, (k, v) ∈ d.
Proof.
  unfold dict_values. rewrite list_elem_of_fmap. split.
  - intros [[k v'] [-> Hin]]. by exists k.
  - intros [k Hin]. by exists (k, v).
Qed.

End dict_facts.

Section dict_elems.
Context {K V : Type} `{EqDecision K}.
Implicit Types (d e : dict K V) (k : K) (v : V).




End dict_elems.

(** * The operator heap *)

Lemma deref_lookup h l o : h !! l = Some o → deref h l = o.
Proof. unfold deref. by intros ->. Qed.

Lemma deref_ge h l : length h ≤ l → deref h l = empty_OperatorDef.
Proof. intros Hl. unfold deref. by rewrite lookup_ge_None_2. Qed.

Lemma deref_app_l h k l : l < length h → deref (h ++ k) l = deref h l.
Proof. intros Hl. unfold deref. by rewrite lookup_app_l. Qed.

Lemma deref_prefix h0 h l :
  h0 `prefix_of` h → l < length h0 → deref h l = deref h0 l.
Proof. intros [k ->] Hl. by apply deref_app_l. Qed.

Lemma deref_app_length h o : deref (h ++ [o]) (length h) = o.
Proof.
  apply deref_lookup. rewrite lookup_app_r by lia.
  by rewrite Nat.sub_diag.
Qed.

Lemma deref_insert_ne h l l' o : l ≠ l' → deref (<[l:=o]> h) l' = deref h l'.
Proof. intros Hne. unfold deref. by rewrite list_lookup_insert_ne. Qed.

Lemma deref_insert_eq h l o : l < length h → deref (<[l:=o]> h) l = o.
Proof. intros Hl. apply deref_lookup. by apply list_lookup_insert_eq. Qed.

Section rewriting.
Variable name_dict : dict string string.

(** Extending the input list by its substituted copy and deleting the
    first half leaves exactly the substituted copy. *)
Lemma rewrite_input_eq o :
  rewrite_input name_dict o =
  set_input o (map (substitute name_dict) (input o)).
Proof.
  unfold rewrite_input. f_equal.
  rewrite length_app, length_map.
  replace (length (input o) + length (input o)) with (length (input o) * 2)
    by lia.
  rewrite Nat.div_mul by done. apply drop_app_length.
Qed.

Lemma rewrite_step_deref h l :
  deref (<[l := rewrite_input name_dict (deref h l)]> h) l =
  rewrite_input name_dict (deref h l).
Proof.
  destruct (decide (l < length h)) as [Hl|Hl].
  - by apply deref_insert_eq.
  - rewrite list_insert_ge by lia. rewrite (deref_ge h l) by lia. done.
Qed.

(** After the loop an operator has been rewritten once for every time it
    is referenced in [forward_ops]. *)
Lemma rewrite_ops_deref cs h c :
  deref (rewrite_ops name_dict cs h) c =
  Nat.iter (count_occ Nat.eq_dec cs c) (rewrite_input name_dict) (deref h c).
Proof.
  unfold rewrite_ops. revert h.
  induction cs as [|c0 cs IH]; intros h; simpl; [done|].
  rewrite IH. destruct (Nat.eq_dec c0 c) as [->|Hne].
  - rewrite rewrite_step_deref. by rewrite Nat.iter_succ_r.
  - by rewrite deref_insert_ne.
Qed.

(** The loop does not touch what lies below the references it follows. *)
Lemma rewrite_ops_prefix cs h k :
  Forall (λ c, length h ≤ c) cs →
  ∃ k', rewrite_ops name_dict cs (h ++ k) = h ++ k'.
Proof.
  unfold rewrite_ops. revert k.
  induction cs as [|c0 cs IH]; intros k Hcs; simpl; [by exists k|].
  apply Forall_cons in Hcs as [Hc0 Hcs].
  rewrite insert_app_r_alt by done. by apply IH.
Qed.
End rewriting.

Lemma substitute_absent nd n : n ∉ dict_keys nd → substitute nd n = n.
Proof.
  intros Hn. unfold substitute.
  by rewrite (proj2 (dict_get_None n nd) Hn).
Qed.

Lemma rewrite_input_lookup nd o j :
  input (rewrite_input nd o) !! j = substitute nd <$> input o !! j.
Proof. rewrite rewrite_input_eq. simpl. apply list_lookup_fmap. Qed.

(** A name the substitution does not know stays where it is, however
    often the operator is rewritten. *)
Lemma rewrite_iter_absent nd o j n k :
  input o !! j = Some n → n ∉ dict_keys nd →
  input (Nat.iter k (rewrite_input nd) o) !! j = Some n.
Proof.
  intros Hj Hn. induction k as [|k IH]; [done|].
  rewrite Nat.iter_succ, rewrite_input_lookup, IH. simpl.
  by rewrite substitute_absent.
Qed.


(** * [copy.deepcopy] *)

(** References below [n0] are never handed out as copies. *)
Lemma deepcopy_refs_frame n0 memo h ls h' cs :
  deepcopy_refs memo h ls = (h', cs) →
  n0 ≤ length h →
  (∀ l c, dict_get l memo = Some c → n0 ≤ c) →
  h `prefix_of` h' ∧ Forall (λ c, n0 ≤ c) cs.
Proof.
  revert memo h h' cs.
  induction ls as [|l ls IH]; intros memo h h' cs; simpl.
  - intros [= <- <-] _ _. done.
  - destruct (dict_get l memo) as [c|] eqn:Hget.
    + destruct (deepcopy_refs memo h ls) as [h1 cs1] eqn:Hrec.
      intros [= <- <-] Hn Hmemo.
      destruct (IH _ _ _ _ Hrec Hn Hmemo) as [Hpre Hcs].
      split; [done|]. apply Forall_cons. eauto.
    + destruct (deepcopy_refs _ (h ++ _) ls) as [h1 cs1] eqn:Hrec.
      intros [= <- <-] Hn Hmemo.
      destruct (IH _ _ _ _ Hrec) as [Hpre Hcs].
      { rewrite length_app. lia. }
      { intros l' c'. destruct (decide (l = l')) as [->|Hne].
        - rewrite dict_get_set_eq. intros [= <-]. done.
        - rewrite dict_get_set_ne by done. apply Hmemo. }
      split.
      * etrans; [|exact Hpre]. by apply prefix_app_r.
      * apply Forall_cons. done.
Qed.

Lemma deepcopy_refs_spec h0 memo h ls h' cs :
  deepcopy_refs memo h ls = (h', cs) →
  h0 `prefix_of` h →
  memo_ok h0 h memo →
  Forall (λ l, l < length h0) ls →
  ∃ memo', h `prefix_of` h' ∧ memo_ok h0 h' memo' ∧
           Forall2 (λ l c, dict_get l memo' = Some c) ls cs ∧
           (∀ l c, dict_get l memo = Some c → dict_get l memo' = Some c).
Proof.
  revert memo h h' cs.
  induction ls as [|l ls IH]; intros memo h h' cs; simpl.
  - intros [= <- <-] _ Hok _. exists memo.
    split; [done|]. split; [done|]. split; [constructor|done].
  - intros Hrun Hpre Hok Hls. apply Forall_cons in Hls as [Hl Hls].
    destruct (dict_get l memo) as [c|] eqn:Hget.
    + destruct (deepcopy_refs memo h ls) as [h1 cs1] eqn:Hrec.
      injection Hrun as <- <-.
      destruct (IH _ _ _ _ Hrec Hpre Hok Hls)
        as (memo' & Hpre' & Hok' & Hall & Hext).
      exists memo'. split; [done|]. split; [done|]. split; [|done].
      apply Forall2_cons. split; [by apply Hext|done].
    + destruct (deepcopy_refs _ (h ++ _) ls) as [h1 cs1] eqn:Hrec.
      injection Hrun as <- <-.
      destruct Hok as [Hval Hinj].
      apply prefix_length in Hpre as Hlen.
      destruct (IH _ _ _ _ Hrec) as (memo' & Hpre' & Hok' & Hall & Hext);
        [by etrans; [exact Hpre|apply prefix_app_r]| |done|].
      { split.
        - intros l' c'. destruct (decide (l = l')) as [->|Hne].
          + rewrite dict_get_set_eq. intros [= <-].
            rewrite length_app. simpl. split; [lia|].
            rewrite deref_app_length. by apply deref_prefix.
          + rewrite dict_get_set_ne by done. intros Hg.
            destruct (Hval _ _ Hg) as [Hc Hd].
            rewrite length_app. simpl. split; [lia|].
            rewrite deref_app_l by lia. done.
        - intros l1 l2 c'.
          destruct (decide (l1 = l)) as [->|Hne1];
            destruct (decide (l2 = l)) as [->|Hne2]; try done.
          + rewrite dict_get_set_eq, dict_get_set_ne by congruence.
            intros [= <-] Hg. apply Hval in Hg. lia.
          + rewrite dict_get_set_eq, dict_get_set_ne by congruence.
            intros Hg [= <-]. apply Hval in Hg. lia.
          + rewrite !dict_get_set_ne by congruence. apply Hinj. }
      exists memo'. split; [|split; [done|split]].
      * etrans; [|exact Hpre']. by apply prefix_app_r.
      * apply Forall2_cons. split; [|done].
        apply Hext. apply dict_get_set_eq.
      * intros l' c' Hg. apply Hext.
        rewrite dict_get_set_ne; [done|]. intros ->. congruence.
Qed.

(** References are copied to references that are equal exactly when the
    originals are. *)
Lemma count_occ_memo (memo : dict loc loc) ls cs l c :
  (∀ l1 l2 c, dict_get l1 memo = Some c → dict_get l2 memo = Some c →
              l1 = l2) →
  Forall2 (λ l c, dict_get l memo = Some c) ls cs →
  dict_get l memo = Some c →
  count_occ Nat.eq_dec cs c = count_occ Nat.eq_dec ls l.
Proof.
  intros Hinj Hall Hget. induction Hall as [|l0 c0 ls cs H0 Hall IH]; [done|].
  simpl. destruct (Nat.eq_dec c0 c) as [->|Hc]; destruct (Nat.eq_dec l0 l) as [->|Hl].
  - by rewrite IH.
  - destruct Hl. by eapply Hinj.
  - congruence.
  - done.
Qed.

Lemma deepcopy_run ls s :
  deepcopy ls s =
  (inr (deepcopy_refs [] (heap s) ls).2,
   with_heap s (deepcopy_refs [] (heap s) ls).1).
Proof.
  unfold deepcopy, bind, get_state. simpl.
  by destruct (deepcopy_refs [] (heap s) ls) as [h cs].
Qed.

(** Copies of valid references: fresh objects above the old heap, each
    equal to its original. *)
Lemma deepcopy_refs_valid h ls :
  Forall (λ l, l < length h) ls →
  ∃ memo, let '(h', cs) := deepcopy_refs [] h ls in
    h `prefix_of` h' ∧ memo_ok h h' memo ∧
    Forall2 (λ l c, dict_get l memo = Some c) ls cs.
Proof.
  intros Hls. destruct (deepcopy_refs [] h ls) as [h' cs] eqn:Hrun.
  destruct (deepcopy_refs_spec h [] h ls h' cs Hrun) as (memo & ? & ? & ? & _);
    [done| |done|by exists memo].
  split; intros; done.
Qed.

Lemma deepcopy_refs_contents h ls :
  Forall (λ l, l < length h) ls →
  let '(h', cs) := deepcopy_refs [] h ls in
  map (deref h') cs = map (deref h) ls.
Proof.
  intros Hls. pose proof (deepcopy_refs_valid h ls Hls) as [memo Hm].
  destruct (deepcopy_refs [] h ls) as [h' cs].
  destruct Hm as (_ & [Hval _] & Hall).
  induction Hall as [|l c ls cs Hget Hall IH]; [done|].
  apply Forall_cons in Hls as [_ Hls]. simpl.
  rewrite IH by done. f_equal. by apply Hval.
Qed.

(** * Merging and ordering the expressions *)

Global Instance key_le_trans : Transitive key_le.
Proof. intros x y z. unfold key_le. lia. Qed.

Global Instance key_le_total : Total key_le.
Proof. intros x y. unfold key_le. lia. Qed.

Lemma sorted_items_Permutation d : sorted_items d ≡ₚ d.
Proof. apply merge_sort_Permutation. Qed.

Lemma sorted_items_sorted d : StronglySorted key_le (sorted_items d).
Proof. apply StronglySorted_merge_sort; apply _. Qed.

Lemma StronglySorted_lookup {A} (R : relation A) l i j x y :
  StronglySorted R l → i < j → l !! i = Some x → l !! j = Some y → R x y.
Proof.
  intros Hs. revert i j. induction Hs as [|z l Hs IH Hall]; intros i j Hij.
  - by rewrite lookup_nil.
  - destruct j as [|j]; [lia|]. destruct i as [|i]; simpl.
    + intros [= ->] Hy. rewrite Forall_forall in Hall. apply Hall.
      by eapply list_elem_of_lookup_2.
    + apply IH. lia.
Qed.

(** In the sorted items a smaller key stands at a smaller position. *)
Lemma sorted_items_position d i j x y :
  sorted_items d !! i = Some x → sorted_items d !! j = Some y →
  x.1 < y.1 → i < j.
Proof.
  intros Hi Hj Hlt. destruct (decide (i < j)) as [|Hge]; [done|].
  destruct (decide (i = j)) as [->|Hne].
  - rewrite Hi in Hj. injection Hj as ->. lia.
  - assert (key_le y x) as Hle.
    { eapply (StronglySorted_lookup key_le _ j i); eauto using sorted_items_sorted.
      lia. }
    unfold key_le in Hle. lia.
Qed.

Lemma extract_all_exprs acc outputs :
  all_exprs (fold_left extract_step outputs acc) =
  merged outputs (all_exprs acc).
Proof.
  revert acc. induction outputs as [|t ts IH]; intros acc; simpl; [done|].
  by rewrite IH.
Qed.

Lemma extract_exprs g outputs :
  all_exprs (extract g outputs) = merged outputs [].
Proof. apply extract_all_exprs. Qed.

Lemma extract_graph_def acc outputs :
  ex_graph_def (fold_left extract_step outputs acc) =
  extend_target (ex_graph_def acc) (map tensor_name outputs).
Proof.
  revert acc. induction outputs as [|t ts IH]; intros acc; simpl.
  - unfold extend_target. rewrite app_nil_r. by destruct (ex_graph_def acc).
  - rewrite IH. simpl. unfold extend_target. simpl.
    by rewrite <- app_assoc.
Qed.

Lemma extract_existing_grads acc outputs :
  existing_grads (fold_left extract_step outputs acc) =
  existing_grads acc ||
  existsb (λ t, bool_decide (0 < length (grad_wrts t))) outputs.
Proof.
  revert acc. induction outputs as [|t ts IH]; intros acc; simpl.
  - by rewrite orb_false_r.
  - rewrite IH. simpl. destruct (decide _) as [H|H].
    + rewrite bool_decide_true by done. by rewrite orb_true_r.
    + rewrite bool_decide_false by done. done.
Qed.

Lemma merged_NoDup outputs d :
  NoDup (dict_keys d) → NoDup (dict_keys (merged outputs d)).
Proof.
  revert d. induction outputs as [|t ts IH]; intros d Hd; simpl; [done|].
  apply IH. by apply dict_update_NoDup.
Qed.

Lemma merged_keys outputs d k :
  k ∈ dict_keys (merged outputs d) ↔
  k ∈ dict_keys d ∨ ∃ t, t ∈ outputs ∧ k ∈ dict_keys (expressions t).
Proof.
  revert d. induction outputs as [|t ts IH]; intros d; simpl.
  - split; [auto|]. intros [?|(t & Hin & _)]; [done|].
    by apply elem_of_nil in Hin.
  - rewrite IH, dict_update_keys. split.
    + intros [[?|?]|(t' & ? & ?)]; [by left| |].
      * right. exists t. split; [apply list_elem_of_here|done].
      * right. exists t'. split; [by apply list_elem_of_further|done].
    + intros [?|(t' & Hin & ?)]; [by left; left|].
      apply elem_of_cons in Hin as [->|Hin]; [by left; right|].
      right. by exists t'.
Qed.

Lemma merged_elem outputs d k l :
  (k, l) ∈ merged outputs d →
  (k, l) ∈ d ∨ ∃ t, t ∈ outputs ∧ (k, l) ∈ expressions t.
Proof.
  revert d. induction outputs as [|t ts IH]; intros d; simpl; [auto|].
  intros Hin. apply IH in Hin as [Hin|(t' & ? & ?)].
  - apply dict_update_elem in Hin as [?|?]; [by left|].
    right. exists t. split; [apply list_elem_of_here|done].
  - right. exists t'. split; [by apply list_elem_of_further|done].
Qed.

(** * Running the stages *)

Lemma frame_refl s : frame s s.
Proof. by repeat split. Qed.

Lemma frame_trans s1 s2 s3 : frame s1 s2 → frame s2 s3 → frame s1 s3.
Proof. unfold frame. intros (-> & -> & ->) (-> & -> & ->). done. Qed.

Lemma stable_ret {A} (a : A) : stable (ret a).
Proof. intros s. apply frame_refl. Qed.

Lemma stable_lift {A} (r : PyError + A) : stable (lift r).
Proof. intros s. apply frame_refl. Qed.

Lemma stable_bind {A B} (m : M A) (k : A → M B) :
  stable m → (∀ a, stable (k a)) → stable (bind m k).
Proof.
  intros Hm Hk s. unfold bind. specialize (Hm s).
  destruct (m s) as [[e|a] s1]; simpl in *; [done|].
  eapply frame_trans; [exact Hm|apply Hk].
Qed.

Lemma stable_foldM {A B} (f : A → B → M A) acc xs :
  (∀ a x, stable (f a x)) → stable (foldM f acc xs).
Proof.
  intros Hf. revert acc. induction xs as [|x xs IH]; intros acc; simpl.
  - apply stable_ret.
  - apply stable_bind; [apply Hf|]. intros a. apply IH.
Qed.

Lemma stable_FeedTensor a b : stable (FeedTensor a b).
Proof. intros s. by repeat split. Qed.

Section runs.
Variable operator_name_of : nat → string.
Variable tensor_name_of : nat → string.
Variable Make :
  list OperatorDef → list string → list OperatorDef * list OperatorDef.
Variable env : Ambient.

Lemma stable_GetOperatorName : stable (GetOperatorName operator_name_of).
Proof. intros s. by repeat split. Qed.

Lemma stable_GraphDef_Update g u :
  stable (GraphDef_Update operator_name_of env g u).
Proof.
  destruct u as [u|]; simpl; [|apply stable_ret].
  apply stable_bind.
  { apply stable_foldM. intros [] kv. apply stable_FeedTensor. }
  intros _. apply stable_bind.
  { destruct (Is_Init (mpi env)); [|apply stable_ret].
    apply stable_bind; [apply stable_lift|]. intros a. apply stable_ret. }
  intros g1. apply stable_bind; [|intros g2; apply stable_ret].
  apply stable_foldM. intros g2 tuple. unfold update_step.
  apply stable_bind; [apply stable_GetOperatorName|].
  intros [i nm]. apply stable_ret.
Qed.

Lemma stable_inject g outputs u :
  stable (inject operator_name_of env g outputs u).
Proof.
  unfold inject. destruct (bool_decide (0 < length outputs)).
  - apply stable_bind; [apply stable_lift|]. intros g1. apply stable_ret.
  - destruct (bool_decide (is_Some u)); [|apply stable_ret].
    apply stable_bind; [apply stable_lift|]. intros g1.
    apply stable_GraphDef_Update.
Qed.

(** ** The givens loop *)

Lemma givens_fold_run items acc s :
  ∃ s', foldM (givens_step tensor_name_of) acc items s =
          (inr (name_dict_of items acc.1,
                external_input_exprs_of items acc.2), s') ∧
        frame s s' ∧ operator_idx s' = operator_idx s.
Proof.
  revert acc s. induction items as [|[old new] items IH]; intros [nd ee] s.
  - exists s. split; [done|]. split; [apply frame_refl|done].
  - simpl. unfold bind at 1. destruct new as [t|a|]; simpl.
    + destruct (IH (dict_set (tensor_name old) (tensor_name t) nd,
                    dict_update ee (expressions t)) s) as (s' & Hrun & Hfr).
      exists s'. done.
    + match goal with |- context [foldM _ _ _ ?s1] =>
        destruct (IH (nd, ee) s1) as (s' & Hrun & Hfr & Ho) end.
      exists s'. split; [done|]. split; [|done].
      eapply frame_trans; [|exact Hfr]. by repeat split.
    + destruct (IH (nd, ee) s) as (s' & Hrun & Hfr). exists s'. done.
Qed.

Lemma handle_givens_run givens forward_ops s :
  ∃ s', handle_givens tensor_name_of givens forward_ops s =
          (inr (match givens with
                | None => forward_ops
                | Some items =>
                    dict_values (external_input_exprs_of items []) ++
                    forward_ops
                end), s') ∧
        heap s' = match givens with
                  | None => heap s
                  | Some items =>
                      rewrite_ops (name_dict_of items []) forward_ops (heap s)
                  end ∧
        graphs s' = graphs s ∧
        CURRENT_GRAPH_IDX s' = CURRENT_GRAPH_IDX s ∧
        operator_idx s' = operator_idx s.
Proof.
  destruct givens as [items|]; simpl; [|by exists s].
  destruct (givens_fold_run items ([], []) s)
    as (s1 & Hrun & (Hh & Hg & Hi) & Ho).
  unfold bind at 1. rewrite Hrun. simpl.
  eexists. split; [reflexivity|]. simpl. by rewrite Hh.
Qed.
End runs.

(** * The givens substitution *)




Lemma external_input_exprs_elem items d k l :
  (k, l) ∈ external_input_exprs_of items d →
  (k, l) ∈ d ∨ ∃ a t, (a, GTensor t) ∈ items ∧ (k, l) ∈ expressions t.
Proof.
  unfold external_input_exprs_of. revert d.
  induction items as [|[a new] items IH]; intros d; simpl; [auto|].
  intros Hin. apply IH in Hin as [Hin|(a' & t & ? & ?)].
  - destruct new as [t| |]; simpl in Hin; [|by left..].
    apply dict_update_elem in Hin as [?|?]; [by left|].
    right. exists a, t. split; [apply list_elem_of_here|done].
  - right. exists a', t. split; [by apply list_elem_of_further|done].
Qed.


(** * The forward operators of a compilation *)

Lemma merged_refs_valid h outputs givens :
  refs_valid h outputs givens → Forall (λ l, l < length h) (merged_refs outputs).
Proof.
  intros [Hout _]. apply Forall_forall. intros l Hl.
  apply dict_values_elem in Hl as [k Hin].
  rewrite sorted_items_Permutation in Hin.
  apply merged_elem in Hin as [Hin|(t & Ht & Hin)].
  - by apply elem_of_nil in Hin.
  - eauto.
Qed.

Lemma external_refs_valid h outputs items :
  refs_valid h outputs (Some items) →
  Forall (λ l, l < length h) (dict_values (external_input_exprs_of items [])).
Proof.
  intros [_ Hgiv]. apply Forall_forall. intros l Hl.
  apply dict_values_elem in Hl as [k Hin].
  apply external_input_exprs_elem in Hin as [Hin|(a & t & Ht & Hin)].
  - by apply elem_of_nil in Hin.
  - eauto.
Qed.

Lemma count_occ_absent (cs : list nat) n c :
  Forall (λ c, n ≤ c) cs → c < n → count_occ Nat.eq_dec cs c = 0.
Proof.
  intros Hcs Hc. apply count_occ_not_In. intros Hin.
  rewrite Forall_forall in Hcs. apply list_elem_of_In, Hcs in Hin. lia.
Qed.

(** The operators read back after the givens stage, in terms of the heap
    the compilation started in. *)
Lemma forward_contents nd h ls ext :
  Forall (λ l, l < length h) ls →
  Forall (λ l, l < length h) ext →
  let '(h1, cs) := deepcopy_refs [] h ls in
  map (deref (rewrite_ops nd cs h1)) (ext ++ cs) =
  map (deref h) ext ++ rewritten nd h ls.
Proof.
  intros Hls Hext.
  pose proof (deepcopy_refs_valid h ls Hls) as [memo Hm].
  destruct (deepcopy_refs [] h ls) as [h1 cs] eqn:Hrun.
  destruct Hm as (Hpre & [Hval Hinj] & Hall).
  assert (Forall (λ c, length h ≤ c) cs) as Hcs.
  { apply (deepcopy_refs_frame (length h) [] h ls h1 cs Hrun); [lia|done]. }
  rewrite map_app. f_equal.
  - apply map_ext_in. intros e He.
    apply list_elem_of_In in He. rewrite Forall_forall in Hext.
    rewrite rewrite_ops_deref.
    rewrite (count_occ_absent cs (length h)) by auto. simpl.
    apply deref_prefix; auto.
  - unfold rewritten.
    assert (∀ f g : loc → OperatorDef,
              (∀ l c, dict_get l memo = Some c → f c = g l) →
              map f cs = map g ls) as Hgen.
    { intros f g Hfg. clear Hrun Hcs Hls.
      induction Hall as [|l c ls' cs' Hget Hall IH]; [done|].
      simpl. f_equal; auto. }
    apply Hgen. intros l c Hget. rewrite rewrite_ops_deref.
    rewrite (count_occ_memo memo ls cs l c) by done.
    f_equal. by apply Hval.
Qed.



Lemma refs_valid_prefix h h' outputs givens :
  h `prefix_of` h' → refs_valid h outputs givens → refs_valid h' outputs givens.
Proof.
  intros Hpre [Hout Hgiv]. apply prefix_length in Hpre. split.
  - intros t k l Ht Hin. specialize (Hout t k l Ht Hin). lia.
  - intros items a t k l Hg Ha Hin. specialize (Hgiv items a t k l Hg Ha Hin).
    lia.
Qed.

(** The forward operators depend on the heap only through the objects the
    outputs and the replacements refer to. *)
Lemma compiled_forward_prefix h h' outputs givens :
  h `prefix_of` h' → refs_valid h outputs givens →
  compiled_forward outputs givens h' = compiled_forward outputs givens h.
Proof.
  intros Hpre Hvalid. unfold compiled_forward, rewritten.
  pose proof (merged_refs_valid _ _ _ Hvalid) as Hls.
  rewrite Forall_forall in Hls.
  destruct givens as [items|].
  - pose proof (external_refs_valid _ _ _ Hvalid) as Hext.
    rewrite Forall_forall in Hext. f_equal.
    + apply map_ext_in. intros l Hl. apply list_elem_of_In in Hl.
      apply deref_prefix; auto.
    + apply map_ext_in. intros l Hl. apply list_elem_of_In in Hl.
      f_equal. apply deref_prefix; auto.
  - apply map_ext_in. intros l Hl. apply list_elem_of_In in Hl.
    apply deref_prefix; auto.
Qed.

Section function_runs.
Variable operator_name_of : nat → string.
Variable tensor_name_of : nat → string.
Variable Make :
  list OperatorDef → list string → list OperatorDef * list OperatorDef.
Variable env : Ambient.

Lemma forward_heap_prefix givens h ls : h `prefix_of` forward_heap givens h ls.
Proof.
  unfold forward_heap.
  destruct (deepcopy_refs [] h ls) as [h1 cs] eqn:Hcopy.
  destruct (deepcopy_refs_frame (length h) [] h ls h1 cs Hcopy)
    as [Hpre Hcs]; [lia|done|].
  destruct givens as [items|]; [|done].
  destruct Hpre as [k ->].
  destruct (rewrite_ops_prefix (name_dict_of items []) cs h k Hcs) as [k' ->].
  by apply prefix_app_r.
Qed.

Lemma forward_values_valid outputs givens h :
  refs_valid h outputs givens →
  forward_values givens h (merged_refs outputs) =
  compiled_forward outputs givens h.
Proof.
  intros Hvalid. unfold forward_values, forward_heap, compiled_forward.
  pose proof (merged_refs_valid _ _ _ Hvalid) as Hls.
  destruct givens as [items|].
  - pose proof (forward_contents (name_dict_of items []) h _ _ Hls
                  (external_refs_valid _ _ _ Hvalid)) as Hfc.
    by destruct (deepcopy_refs [] h (merged_refs outputs)) as [h1 cs].
  - pose proof (deepcopy_refs_contents h _ Hls) as Hdc.
    by destruct (deepcopy_refs [] h (merged_refs outputs)) as [h1 cs].
Qed.

(** A call that passes the argument check runs the forward stages, which
    cannot fail and only add to the heap; the rest of the call injects the
    metadata into the assembled graph and registers it. *)
Lemma function_run inputs outputs givens updater s :
  bool_decide (0 < length (as_list outputs)) && bool_decide (is_Some updater)
    = false →
  ∃ s1,
    heap s1 = forward_heap givens (heap s) (merged_refs (as_list outputs)) ∧
    graphs s1 = graphs s ∧
    CURRENT_GRAPH_IDX s1 = S (CURRENT_GRAPH_IDX s) ∧
    operator_idx s1 = operator_idx s ∧
    function operator_name_of tensor_name_of Make env
             inputs outputs givens updater s =
      (do '(graph_def, updater) <-
         inject operator_name_of env
                (assembled Make (CURRENT_GRAPH_IDX s) (as_list outputs)
                   (forward_values givens (heap s)
                      (merged_refs (as_list outputs))))
                (as_list outputs) updater;
       CreateGraph graph_def ;;
       ret (mkCallable (name graph_def) (as_list inputs) (as_list outputs),
            updater)) s1.
Proof.
  intros Hnc. unfold function. rewrite Hnc.
  unfold bind at 1. simpl.
  unfold bind at 1. rewrite deepcopy_run.
  rewrite !extract_exprs. fold (merged_refs (as_list outputs)).
  set (ls := merged_refs (as_list outputs)).
  set (s0 := mkState _ _ _ _ _ _).
  change (heap s0) with (heap s).
  unfold forward_values, forward_heap.
  destruct (deepcopy_refs [] (heap s) ls) as [h1 cs] eqn:Hcopy. simpl.
  destruct (handle_givens_run tensor_name_of givens cs (with_heap s0 h1))
    as (s1 & Hrun & Hh & Hg & Hi & Ho).
  unfold bind at 1. rewrite Hrun.
  unfold bind at 1, get_state at 1. simpl.
  exists s1. split; [|split; [done|split; [done|split; [done|]]]].
  { rewrite Hh. by destruct givens. }
  unfold assembled.
  assert (heap s1 = match givens with
                    | Some items => rewrite_ops (name_dict_of items []) cs h1
                    | None => h1
                    end) as <- by (rewrite Hh; by destruct givens).
  destruct givens as [items|];
    (destruct (existing_grads _); [destruct (Make _ _)|]; reflexivity).
Qed.
End function_runs.

(** * Injecting the metadata *)

Lemma fold_extend_g_target_fields (pairs : list (string * string)) g :
  let g' := fold_left
              (λ g pair, extend_g_target g [mkGradientTarget pair.1 pair.2])
              pairs g in
  name g' = name g ∧ op g' = op g ∧ target g' = target g ∧
  u_target g' = u_target g ∧ arg g' = arg g ∧
  device_option g' = device_option g.
Proof.
  revert g. induction pairs as [|p pairs IH]; intros g; simpl; [done|].
  apply (IH (extend_g_target g [mkGradientTarget p.1 p.2])).
Qed.

Lemma phase_of_targets_existsb targets :
  phase_of_targets "TEST" targets =
  if existsb (λ t, bool_decide (0 < length (grad_wrts t))) targets
  then "TRAIN" else "TEST".
Proof.
  induction targets as [|t ts IH]; simpl; [done|].
  destruct (decide _) as [H|H].
  - by rewrite bool_decide_true.
  - by rewrite bool_decide_false.
Qed.

Lemma existsb_grad_wrts outputs :
  existsb (λ t, bool_decide (0 < length (grad_wrts t))) outputs = true ↔
  ∃ t, t ∈ outputs ∧ grad_wrts t ≠ [].
Proof.
  rewrite existsb_exists. split.
  - intros (t & Hin & Hlen). exists t. split; [by apply list_elem_of_In|].
    apply bool_decide_eq_true in Hlen. intros Heq. rewrite Heq in Hlen.
    simpl in Hlen. lia.
  - intros (t & Hin & Hne). exists t. split; [by apply list_elem_of_In|].
    apply bool_decide_eq_true. destruct (grad_wrts t); [done|simpl; lia].
Qed.

Lemma update_targets_lookup operator_name_of ty extra n tuples i :
  update_targets operator_name_of ty extra n tuples !! i =
  (λ tuple, mkUpdateTarget (operator_name_of (n + i)) ty tuple.1
              (make_arguments (dict_update tuple.2 extra))) <$> tuples !! i.
Proof.
  revert n i. induction tuples as [|tuple tuples IH]; intros n i; simpl.
  - by rewrite !lookup_nil.
  - destruct i as [|i]; simpl.
    + by rewrite Nat.add_0_r.
    + rewrite IH. by replace (S n + i) with (n + S i) by lia.
Qed.

Lemma update_targets_length operator_name_of ty extra n tuples :
  length (update_targets operator_name_of ty extra n tuples) = length tuples.
Proof.
  revert n. induction tuples as [|tuple tuples IH]; intros n; simpl; [done|].
  by rewrite IH.
Qed.

Lemma update_targets_names operator_name_of ty extra n tuples :
  ut_name <$> update_targets operator_name_of ty extra n tuples =
  operator_name_of <$> seq n (length tuples).
Proof.
  revert n. induction tuples as [|tuple tuples IH]; intros n; simpl; [done|].
  by rewrite IH.
Qed.

Section inject_runs.
Variable operator_name_of : nat → string.
Variable env : Ambient.

Lemma GraphDef_Device_ok g :
  device_supported env →
  ∃ d, GraphDef_Device env g =
         inr (mkGraphDef (name g) (op g) (target g) (g_target g)
                (u_target g) (arg g) d (debug_mode g) (share_grads g)) ∧
       (opt_device (option_ env) = "None" → d = device_option g).
Proof.
  unfold device_supported, GraphDef_Device. intros Hdev.
  destruct (decide (opt_device (option_ env) ≠ "None")) as [Hne|Heq].
  - repeat (apply elem_of_cons in Hdev as [Hdev|Hdev]; [|]);
      try (by apply elem_of_nil in Hdev); try done;
      rewrite Hdev; simpl; eexists; (split; [reflexivity|done]).
  - exists (device_option g). split; [by destruct g|done].
Qed.

Lemma phase_of_eq g outputs :
  GraphDef_Phase env g outputs =
  extend_arg g [MakeArgument "phase" (VStr (phase_of env outputs))].
Proof.
  unfold GraphDef_Phase, phase_of. by rewrite phase_of_targets_existsb.
Qed.

(** With outputs requested, the injected graph keeps its operators and
    targets and carries the phase as its only new argument. *)
Lemma inject_outputs_run g outputs updater s :
  0 < length outputs → device_supported env →
  ∃ g', inject operator_name_of env g outputs updater s = (inr (g', updater), s) ∧
        name g' = name g ∧ op g' = op g ∧ target g' = target g ∧
        u_target g' = u_target g ∧
        arg g' = arg g ++ [MakeArgument "phase" (VStr (phase_of env outputs))].
Proof.
  intros Hlen Hdev. unfold inject. rewrite bool_decide_true by done.
  destruct (GraphDef_Device_ok g Hdev) as (d & Hd & _).
  unfold bind, lift. rewrite Hd. simpl. eexists. split; [reflexivity|].
  rewrite phase_of_eq. simpl.
  unfold GraphDef_Grad.
  match goal with |- context [fold_left ?f ?l ?a] =>
    pose proof (fold_extend_g_target_fields l a) as Hf end.
  simpl in Hf. destruct Hf as (-> & -> & -> & -> & -> & _). done.
Qed.

Lemma feed_fold_run (f : string * PyValue → FeedArg * FeedArg) kvs s :
  ∃ s', foldM (λ _ kv, FeedTensor (f kv).1 (f kv).2) tt kvs s = (inr tt, s') ∧
        frame s s' ∧ operator_idx s' = operator_idx s.
Proof.
  revert s. induction kvs as [|kv kvs IH]; intros s; simpl.
  - exists s. split; [done|]. split; [apply frame_refl|done].
  - unfold bind at 1. simpl.
    match goal with |- context [foldM _ _ _ ?s1] =>
      destruct (IH s1) as (s' & Hrun & Hfr & Ho) end.
    exists s'. split; [done|]. split; [|done].
    eapply frame_trans; [|exact Hfr]. by repeat split.
Qed.

Lemma update_fold_run ty extra g tuples s :
  ∃ s', foldM (update_step operator_name_of ty extra) g tuples s =
          (inr (extend_u_target g
                  (update_targets operator_name_of ty extra (operator_idx s)
                                  tuples)), s') ∧
        frame s s'.
Proof.
  revert g s. induction tuples as [|tuple tuples IH]; intros g s; simpl.
  - exists s. split; [|apply frame_refl].
    unfold ret, extend_u_target. rewrite app_nil_r. by destruct g.
  - unfold bind at 1. simpl.
    match goal with |- context [foldM _ ?g1 _ ?s1] =>
      destruct (IH g1 s1) as (s' & Hrun & Hfr) end.
    exists s'. split.
    + rewrite Hrun. simpl. unfold extend_u_target. simpl.
      by rewrite <- app_assoc.
    + eapply frame_trans; [|exact Hfr]. by repeat split.
Qed.

Lemma parallel_arguments_ok :
  parallel_ready env → Is_Init (mpi env) = true →
  ∃ pargs, parallel_arguments env = inr pargs.
Proof.
  unfold parallel_ready, parallel_arguments. intros Hready Hinit.
  specialize (Hready Hinit).
  destruct (AllowParallel (mpi env)) as [idx group]. simpl in Hready.
  destruct (decide (idx ≠ (-1)%Z)) as [Hidx|Hidx]; [|by eexists].
  destruct group as [|root group]; [by destruct (Hready Hidx)|].
  destruct (CreateGroup (mpi env) root (root :: group)). by eexists.
Qed.

(** The update injector emits the targets [update_targets] lists, in the
    order of the tuples, and hands the updater back with its prefix and
    its domain argument set. *)
Lemma GraphDef_Update_run g u s :
  parallel_ready env →
  let prefix := name g +:+ "_" in
  let extra := dict_set "domain" (VStr prefix) (_extra_kwargs u) in
  ∃ g' s',
    GraphDef_Update operator_name_of env g (Some u) s =
      (inr (g', Some (mkUpdater prefix extra (_hyper_params u) (_tuples u)
                                (_type u))), s') ∧
    frame s s' ∧
    name g' = name g ∧ op g' = op g ∧ target g' = target g ∧
    g_target g' = g_target g ∧
    u_target g' =
      u_target g ++
      update_targets operator_name_of (_type u) extra (operator_idx s)
                     (_tuples u).
Proof.
  intros Hready prefix extra. unfold GraphDef_Update. fold prefix. fold extra.
  destruct (feed_fold_run
              (λ kv, (FName (prefix +:+ kv.1),
                      FArray (np_array_float32 [kv.2])))
              (_hyper_params u) s) as (s1 & Hfeed & Hfr1 & Ho1).
  simpl in Hfeed. unfold bind at 1. rewrite Hfeed.
  assert (∃ g1, (if Is_Init (mpi env)
                 then do pargs <- lift (parallel_arguments env);
                      ret (extend_arg g (make_arguments pargs))
                 else ret g) s1 = (inr g1, s1) ∧
                name g1 = name g ∧ op g1 = op g ∧ target g1 = target g ∧
                g_target g1 = g_target g ∧ u_target g1 = u_target g)
    as (g1 & Hpar & Hn & Hop & Ht & Hgt & Hut).
  { destruct (Is_Init (mpi env)) eqn:Hinit; [|by exists g].
    destruct (parallel_arguments_ok Hready Hinit) as [pargs Hp].
    unfold bind, lift. rewrite Hp. by eexists. }
  unfold bind at 1. rewrite Hpar.
  destruct (update_fold_run (_type u) extra g1 (_tuples u) s1)
    as (s2 & Hupd & Hfr2).
  unfold bind at 1. rewrite Hupd. simpl.
  eexists _, s2. split; [reflexivity|].
  split; [by eapply frame_trans|]. simpl.
  rewrite Hn, Hop, Ht, Hgt, Hut, Ho1. done.
Qed.

(** With no outputs and an updater, the injection is the update injector
    run on the graph with its device and debug options set. *)
Lemma inject_updater_run g u s :
  device_supported env → parallel_ready env →
  let prefix := name g +:+ "_" in
  let extra := dict_set "domain" (VStr prefix) (_extra_kwargs u) in
  ∃ g' s',
    inject operator_name_of env g [] (Some u) s =
      (inr (g', Some (mkUpdater prefix extra (_hyper_params u) (_tuples u)
                                (_type u))), s') ∧
    frame s s' ∧
    name g' = name g ∧ op g' = op g ∧ target g' = target g ∧
    g_target g' = g_target g ∧
    u_target g' =
      u_target g ++
      update_targets operator_name_of (_type u) extra (operator_idx s)
                     (_tuples u).
Proof.
  intros Hdev Hready prefix extra. unfold inject.
  rewrite bool_decide_false by (simpl; lia).
  rewrite bool_decide_true by (by eexists).
  destruct (GraphDef_Device_ok g Hdev) as (d & Hd & _).
  unfold bind at 1, lift. rewrite Hd.
  match goal with |- context [GraphDef_Update _ _ ?g1 _ s] =>
    destruct (GraphDef_Update_run g1 u s Hready)
      as (g' & s' & Hupd & Hfr & Hfields)
  end.
  exists g', s'. split; [exact Hupd|]. split; [done|]. exact Hfields.
Qed.
End inject_runs.

Lemma assembled_fields Make idx outputs fwd :
  name (assembled Make idx outputs fwd) = "Graph_" +:+ pretty idx ∧
  op (assembled Make idx outputs fwd) = with_grads Make outputs fwd ∧
  g_target (assembled Make idx outputs fwd) = [] ∧
  u_target (assembled Make idx outputs fwd) = [] ∧
  arg (assembled Make idx outputs fwd) = [] ∧
  device_option (assembled Make idx outputs fwd) = None ∧
  debug_mode (assembled Make idx outputs fwd) = false ∧
  share_grads (assembled Make idx outputs fwd) = false.
Proof.
  unfold assembled, with_grads, extract.
  rewrite extract_existing_grads, extract_graph_def. simpl.
  destruct (existsb _ outputs).
  - by destruct (Make fwd (map tensor_name outputs)).
  - simpl. by rewrite app_nil_r.
Qed.

Lemma assembled_no_outputs Make idx fwd :
  assembled Make idx [] fwd =
  mkGraphDef ("Graph_" +:+ pretty idx) fwd [] [] [] [] None false false.
Proof. unfold assembled. simpl. by rewrite app_nil_r. Qed.

Section injected.
Variable operator_name_of : nat → string.
Variable env : Ambient.

(** What the update injector does, whether or not the group has a root. *)
Lemma GraphDef_Update_fields g u s g' u' s' :
  GraphDef_Update operator_name_of env g u s = (inr (g', u'), s') →
  name g' = name g ∧ op g' = op g ∧ target g' = target g.
Proof.
  destruct u as [u|]; simpl; [|by intros [= <- <- <-]].
  set (prefix := name g +:+ "_").
  destruct (feed_fold_run
              (λ kv, (FName (prefix +:+ kv.1),
                      FArray (np_array_float32 [kv.2])))
              (_hyper_params u) s) as (s1 & Hfeed & _ & _).
  simpl in Hfeed. unfold bind at 1. rewrite Hfeed.
  unfold bind at 1.
  destruct (Is_Init (mpi env)).
  - unfold bind at 1, lift.
    destruct (parallel_arguments env) as [e|pargs]; [done|]. simpl.
    match goal with |- context [foldM ?f ?g1 ?l] =>
      destruct (update_fold_run operator_name_of (_type u)
                  (dict_set "domain" (VStr prefix) (_extra_kwargs u))
                  g1 l s1) as (s2 & Hupd & _) end.
    unfold bind at 1. rewrite Hupd. simpl. by intros [= <- <- <-].
  - simpl.
    match goal with |- context [foldM ?f ?g1 ?l] =>
      destruct (update_fold_run operator_name_of (_type u)
                  (dict_set "domain" (VStr prefix) (_extra_kwargs u))
                  g1 l s1) as (s2 & Hupd & _) end.
    unfold bind at 1. rewrite Hupd. simpl. by intros [= <- <- <-].
Qed.

Lemma GraphDef_Device_fields g g' :
  GraphDef_Device env g = inr g' →
  name g' = name g ∧ op g' = op g ∧ target g' = target g.
Proof.
  unfold GraphDef_Device. destruct (decide _); [|by intros [= <-]].
  destruct (dict_get _ _); [|done]. by intros [= <-].
Qed.

(** A successful injection changes neither the name, nor the operators,
    nor the targets of the graph. *)
Lemma inject_fields g outputs u s g' u' s' :
  inject operator_name_of env g outputs u s = (inr (g', u'), s') →
  name g' = name g ∧ op g' = op g ∧ target g' = target g.
Proof.
  unfold inject. destruct (bool_decide (0 < length outputs)).
  - unfold bind, lift. destruct (GraphDef_Device env g) as [e|gd] eqn:Hd; [done|].
    simpl. intros [= <- <- <-]. rewrite phase_of_eq. simpl.
    unfold GraphDef_Grad.
    match goal with |- context [fold_left ?f ?l ?a] =>
      pose proof (fold_extend_g_target_fields l a) as Hf end.
    simpl in Hf. destruct Hf as (-> & -> & -> & _). simpl.
    by apply GraphDef_Device_fields.
  - destruct (bool_decide (is_Some u)); [|by intros [= <- <- <-]].
    unfold bind at 1, lift.
    destruct (GraphDef_Device env g) as [e|gd] eqn:Hd; [done|].
    intros Hupd. apply GraphDef_Update_fields in Hupd as (-> & -> & ->).
    simpl. by apply GraphDef_Device_fields.
Qed.
End injected.

(** * The whole call *)

Section function_facts.
Variable operator_name_of : nat → string.
Variable tensor_name_of : nat → string.
Variable Make :
  list OperatorDef → list string → list OperatorDef * list OperatorDef.
Variable env : Ambient.

(** Whatever the outcome, the call only adds objects to the heap. *)
Lemma function_heap_prefix inputs outputs givens updater s :
  heap s `prefix_of`
  heap (function operator_name_of tensor_name_of Make env
                 inputs outputs givens updater s).2.
Proof.
  destruct (bool_decide (0 < length (as_list outputs)) &&
            bool_decide (is_Some updater)) eqn:Hc.
  - unfold function. rewrite Hc. done.
  - destruct (function_run operator_name_of tensor_name_of Make env
                inputs outputs givens updater s Hc)
      as (s1 & Hh & _ & _ & _ & ->).
    unfold bind at 1.
    match goal with |- context [inject ?a ?b ?c ?d ?e s1] =>
      pose proof (stable_inject a b c d e s1) as (Hfr & _ & _);
      destruct (inject a b c d e s1) as [[e'|[g' u']] s2] end;
      simpl in *; rewrite Hfr, Hh; apply forward_heap_prefix.
Qed.

(** A successful call registers one graph: the assembled graph with the
    metadata injected, its operators being those of [with_grads]. *)
Lemma function_graph inputs outputs givens updater s c u' s' :
  function operator_name_of tensor_name_of Make env
           inputs outputs givens updater s = (inr (c, u'), s') →
  ∃ g, graphs s' = graphs s ++ [g] ∧
       name g = "Graph_" +:+ pretty (CURRENT_GRAPH_IDX s) ∧
       op g = with_grads Make (as_list outputs)
                (forward_values givens (heap s)
                   (merged_refs (as_list outputs))).
Proof.
  destruct (bool_decide (0 < length (as_list outputs)) &&
            bool_decide (is_Some updater)) eqn:Hc.
  { unfold function. rewrite Hc. done. }
  destruct (function_run operator_name_of tensor_name_of Make env
              inputs outputs givens updater s Hc)
    as (s1 & Hh & Hg & _ & _ & ->).
  unfold bind at 1.
  match goal with |- context [inject ?a ?b ?c ?d ?e s1] =>
    pose proof (stable_inject a b c d e s1) as (_ & Hfr & _);
    destruct (inject a b c d e s1) as [[e'|[g' u1]] s2] eqn:Hinj end; [done|].
  simpl in *. intros [= <- <- <-]. exists g'. simpl.
  rewrite Hfr, Hg. split; [done|].
  apply inject_fields in Hinj as (-> & -> & _).
  pose proof (assembled_fields Make (CURRENT_GRAPH_IDX s) (as_list outputs)
                (forward_values givens (heap s)
                   (merged_refs (as_list outputs)))) as (-> & -> & _).
  done.
Qed.
End function_facts.

Lemma graph_name_inj (n m : nat) :
  "Graph_" +:+ pretty n = "Graph_" +:+ pretty m → n = m.
Proof.
  simpl. intros [= Heq]. by apply pretty_nat_inj in Heq.
Qed.

(** * Properties of the compiled graph *)

(** Case analysis of a membership in a list that is written out. *)
Ltac invert_elems :=
  simplify_eq;
  repeat (match goal with
          | H : _ ∈ [] |- _ => by apply elem_of_nil in H
          | H : _ ∈ _ :: _ |- _ => apply elem_of_cons in H as [H|H]
          end; simplify_eq; simpl in *).

Ltac demo_elems :=
  unfold demo_y, demo_c, demo_b, demo_a, demo_state, demo_heap in *;
  simpl in *; invert_elems.

Lemma demo_operator_name_inj : Inj (=) (=) demo_operator_name.
Proof.
  intros n m. unfold demo_operator_name. simpl. intros [= Heq].
  by apply pretty_nat_inj in Heq.
Qed.




(** C3 as stated fails: on a key that an update tuple and the shared
    arguments both carry, the emitted update target has the shared value,
    not the tuple's own. *)
Lemma function_update_arguments_counterexample :
  ∃ g ut,
    compiled_graph
      (function demo_operator_name demo_tensor_name demo_Make demo_env
                ArgNone ArgNone None (Some demo_updater) demo_state).2
      = Some g ∧
    u_target g = [ut] ∧
    _tuples demo_updater = [(["w"; "w_grad"],
                             [("lr", VInt 1); ("decay", VInt 5)])] ∧
    _extra_kwargs demo_updater = [("lr", VInt 2)] ∧
    ut_arg ut = [MakeArgument "lr" (VInt 2); MakeArgument "decay" (VInt 5);
                 MakeArgument "domain" (VStr "Graph_0_")].
Proof.
  eexists _, _. split; [vm_compute; reflexivity|]. done.
Qed.

(** C3, amended: an update-only compilation emits one update target per
    tuple of the updater, in order.  Each carries the tuple's tensors, the
    updater's type, a name drawn from the operator counter (no two targets
    share one), and the tuple's arguments updated with the shared
    arguments, among them the domain: on a key both carry, the shared
    argument takes precedence over the tuple's own. *)
Theorem function_update_targets operator_name_of tensor_name_of Make env
    inputs outputs givens (u : Updater) s :
  as_list outputs = [] → device_supported env → parallel_ready env →
  NoDup (dict_keys (_extra_kwargs u)) →
  Inj (=) (=) operator_name_of →
  ∃ c u' s' g,
    function operator_name_of tensor_name_of Make env
             inputs outputs givens (Some u) s = (inr (c, Some u'), s') ∧
    compiled_graph s' = Some g ∧
    let extra := dict_set "domain" (VStr (name g +:+ "_")) (_extra_kwargs u) in
    length (u_target g) = length (_tuples u) ∧
    (∀ i tuple,
       _tuples u !! i = Some tuple →
       u_target g !! i =
         Some (mkUpdateTarget (operator_name_of (operator_idx s + i))
                 (_type u) tuple.1
                 (make_arguments (dict_update tuple.2 extra)))) ∧
    (∀ (arguments : dict string PyValue) k,
       dict_get k (dict_update arguments extra) =
         match dict_get k extra with
         | Some v => Some v
         | None => dict_get k arguments
         end) ∧
    NoDup (ut_name <$> u_target g).
Proof.
  intros Hout Hdev Hready Hnd Hnames.
  destruct (function_run operator_name_of tensor_name_of Make env
              inputs outputs givens (Some u) s) as (s1 & _ & Hg & _ & Ho & Hrun).
  { rewrite Hout. done. }
  rewrite Hrun, Hout. rewrite assembled_no_outputs.
  set (g0 := mkGraphDef _ _ _ _ _ _ _ _ _).
  destruct (inject_updater_run operator_name_of env g0 u s1 Hdev Hready)
    as (g' & s2 & Hinj & (_ & Hg2 & _) & Hname & _ & _ & _ & Hut).
  unfold bind at 1. rewrite Hinj.
  simpl in Hname, Hut. rewrite Ho in Hut.
  unfold bind, CreateGraph, ret. cbv beta iota.
  eexists _, _, _, g'. split; [reflexivity|].
  unfold compiled_graph. simpl. rewrite last_snoc. split; [done|].
  rewrite Hname, Hut. simpl.
  split; [|split; [|split]].
  - apply update_targets_length.
  - intros i tuple Hi. rewrite update_targets_lookup, Hi. done.
  - intros arguments k. apply dict_get_update.
    by apply dict_set_NoDup.
  - rewrite update_targets_names. apply NoDup_fmap_2; [done|].
    apply NoDup_seq.
Qed.

Lemma function_update_targets_witness :
  ∃ c u' s' g,
    function demo_operator_name demo_tensor_name demo_Make demo_env
             ArgNone ArgNone None (Some demo_updater) demo_state =
      (inr (c, Some u'), s') ∧
    compiled_graph s' = Some g ∧
    let extra := dict_set "domain" (VStr (name g +:+ "_"))
                          (_extra_kwargs demo_updater) in
    length (u_target g) = length (_tuples demo_updater) ∧
    (∀ i tuple,
       _tuples demo_updater !! i = Some tuple →
       u_target g !! i =
         Some (mkUpdateTarget
                 (demo_operator_name (operator_idx demo_state + i))
                 (_type demo_updater) tuple.1
                 (make_arguments (dict_update tuple.2 extra)))) ∧
    (∀ (arguments : dict string PyValue) k,
       dict_get k (dict_update arguments extra) =
         match dict_get k extra with
         | Some v => Some v
         | None => dict_get k arguments
         end) ∧
    NoDup (ut_name <$> u_target g).
Proof.
  apply (function_update_targets demo_operator_name demo_tensor_name
           demo_Make demo_env ArgNone ArgNone None demo_updater demo_state).
  - done.
  - unfold device_supported. simpl. apply list_elem_of_here.
  - unfold parallel_ready. simpl. done.
  - unfold dict_keys. simpl. apply NoDup_singleton.
  - apply demo_operator_name_inj.
Defined.

(** C4: with an array as the replacement the code draws a fresh name and
    calls [FeedTensor] with the array in the tensor position and the name
    in the value position, and records no substitution: the operator that
    consumes the replaced tensor still reads it. *)
Theorem function_array_givens_not_substituted :
  let r := function demo_operator_name demo_tensor_name demo_Make demo_env
                    ArgNone (ArgTensor demo_c)
                    (Some [(demo_a, GArray demo_array)]) None demo_state in
  name_dict_of [(demo_a, GArray demo_array)] [] = [] ∧
  feeds r.2 = [(FArray demo_array, FName "Tensor_0")] ∧
  op <$> compiled_graph r.2 =
    Some [mkOperatorDef "Op_1" "Add" ["a"; "x"] ["c"] []].
Proof.
  split; [done|]. split; vm_compute; reflexivity.
Qed.

(** C5 as stated fails: an operator input that the substitution does not
    hold raises nothing; the compilation succeeds and the name is still
    the operator's input. *)
Lemma function_unknown_name_counterexample :
  let r := function demo_operator_name demo_tensor_name demo_Make demo_env
                    ArgNone (ArgTensor demo_c)
                    (Some [(demo_a, GTensor demo_b)]) None demo_state in
  dict_get "x" (name_dict_of [(demo_a, GTensor demo_b)] []) = None ∧
  (∃ c s', r = (inr c, s')) ∧
  op <$> compiled_graph r.2 =
    Some [mkOperatorDef "Op_0" "Scale" ["a"] ["b"] [];
          mkOperatorDef "Op_1" "Add" ["b"; "x"] ["c"] []].
Proof.
  split; [done|]. split; [eexists _, _|]; vm_compute; reflexivity.
Qed.

(** C5, amended: the givens stage cannot fail, and it never looks up an
    input name that the substitution does not hold: such a name is passed
    through, and stands in the rewritten input list where it stood. *)
Theorem handle_givens_passes_unknown_names tensor_name_of givens forward_ops
    s :
  ∃ ops s',
    handle_givens tensor_name_of givens forward_ops s = (inr ops, s') ∧
    ∀ c j n,
      input (deref (heap s) c) !! j = Some n →
      (∀ items, givens = Some items → n ∉ dict_keys (name_dict_of items [])) →
      input (deref (heap s') c) !! j = Some n.
Proof.
  destruct (handle_givens_run tensor_name_of givens forward_ops s)
    as (s' & Hrun & Hh & _).
  eexists _, s'. split; [exact Hrun|].
  intros c j n Hj Habs. rewrite Hh.
  destruct givens as [items|]; [|done].
  rewrite rewrite_ops_deref. apply rewrite_iter_absent; auto.
Qed.

(** C6: a compilation with outputs tags the graph with one phase argument.
    A non-empty [PHASE_SCOPE] decides it (so a train-phase scope gives
    [TRAIN], whatever the gradients); with no scope the phase is [TRAIN]
    if some output has a grad-wrt entry and [TEST] if none has. *)
Theorem function_phase operator_name_of tensor_name_of Make env
    inputs outputs givens s :
  0 < length (as_list outputs) → device_supported env →
  ∃ c s' g phase,
    function operator_name_of tensor_name_of Make env
             inputs outputs givens None s = (inr (c, None), s') ∧
    compiled_graph s' = Some g ∧
    arg g = [MakeArgument "phase" (VStr phase)] ∧
    (PHASE_SCOPE env ≠ "" → phase = upper (PHASE_SCOPE env)) ∧
    (upper (PHASE_SCOPE env) = "TRAIN" → phase = "TRAIN") ∧
    (PHASE_SCOPE env = "" →
     (∃ t, t ∈ as_list outputs ∧ grad_wrts t ≠ []) → phase = "TRAIN") ∧
    (PHASE_SCOPE env = "" →
     (∀ t, t ∈ as_list outputs → grad_wrts t = []) → phase = "TEST").
Proof.
  intros Hlen Hdev.
  destruct (function_run operator_name_of tensor_name_of Make env
              inputs outputs givens None s) as (s1 & _ & Hg & _ & _ & Hrun).
  { apply andb_false_r. }
  rewrite Hrun.
  match goal with |- context [inject ?a ?b ?g0 ?d ?e] =>
    destruct (inject_outputs_run a b g0 d e s1 Hlen Hdev)
      as (g' & Hinj & _ & _ & _ & _ & Harg);
    pose proof (assembled_fields Make (CURRENT_GRAPH_IDX s) (as_list outputs)
                  (forward_values givens (heap s)
                     (merged_refs (as_list outputs))))
      as (_ & _ & _ & _ & Harg0 & _)
  end.
  rewrite Harg0 in Harg. simpl in Harg.
  unfold bind at 1. rewrite Hinj. simpl.
  eexists _, _, g', (phase_of env (as_list outputs)).
  split; [reflexivity|]. unfold compiled_graph. simpl. rewrite last_snoc.
  split; [done|]. split; [done|]. unfold phase_of.
  split; [|split; [|split]].
  - intros Hne. by rewrite decide_True.
  - intros Hup. rewrite decide_True; [done|].
    intros Heq. rewrite Heq in Hup. done.
  - intros Heq Hex. rewrite decide_False by (by intros []).
    apply existsb_grad_wrts in Hex. by rewrite Hex.
  - intros Heq Hall. rewrite decide_False by (by intros []).
    destruct (existsb _ _) eqn:Hex; [|done].
    apply existsb_grad_wrts in Hex as (t & Hin & Hne).
    by destruct Hne; apply Hall.
Qed.

Lemma function_phase_witness :
  ∃ c s' g phase,
    function demo_operator_name demo_tensor_name demo_Make demo_env
             ArgNone (ArgTensor demo_y) None None demo_state =
      (inr (c, None), s') ∧
    compiled_graph s' = Some g ∧
    arg g = [MakeArgument "phase" (VStr phase)] ∧
    (PHASE_SCOPE demo_env ≠ "" → phase = upper (PHASE_SCOPE demo_env)) ∧
    (upper (PHASE_SCOPE demo_env) = "TRAIN" → phase = "TRAIN") ∧
    (PHASE_SCOPE demo_env = "" →
     (∃ t, t ∈ as_list (ArgTensor demo_y) ∧ grad_wrts t ≠ []) →
     phase = "TRAIN") ∧
    (PHASE_SCOPE demo_env = "" →
     (∀ t, t ∈ as_list (ArgTensor demo_y) → grad_wrts t = []) →
     phase = "TEST").
Proof.
  apply function_phase.
  - simpl. lia.
  - unfold device_supported. simpl. apply list_elem_of_here.
Defined.

(** C7: a call with non-empty outputs and an updater raises the
    argument-conflict [RuntimeError] and leaves the state as it found it:
    no graph definition has been built or registered and
    [CURRENT_GRAPH_IDX] has not moved. *)
Theorem function_conflict operator_name_of tensor_name_of Make env
    inputs outputs givens (u : Updater) s :
  0 < length (as_list outputs) →
  function operator_name_of tensor_name_of Make env
           inputs outputs givens (Some u) s =
  (inl (RuntimeError conflict_message), s).
Proof.
  intros Hlen. unfold function.
  rewrite bool_decide_true by done.
  rewrite bool_decide_true by (by eexists). done.
Qed.

Lemma function_conflict_witness :
  0 < length (as_list (ArgTensor demo_y)) ∧
  function demo_operator_name demo_tensor_name demo_Make demo_env
           ArgNone (ArgTensor demo_y) None (Some demo_updater) demo_state =
  (inl (RuntimeError conflict_message), demo_state).
Proof.
  split; [simpl; lia|]. apply function_conflict. simpl. lia.
Defined.

(** C8: compiling the same outputs a second time, in the state the first
    compilation left, registers a graph with the same operators in the
    same order. *)
Theorem function_deterministic operator_name_of tensor_name_of Make env
    inputs outputs givens updater s c1 u1 s1 c2 u2 s2 :
  refs_valid (heap s) (as_list outputs) givens →
  function operator_name_of tensor_name_of Make env
           inputs outputs givens updater s = (inr (c1, u1), s1) →
  function operator_name_of tensor_name_of Make env
           inputs outputs givens u1 s1 = (inr (c2, u2), s2) →
  ∃ g1 g2, compiled_graph s1 = Some g1 ∧ compiled_graph s2 = Some g2 ∧
           op g1 = op g2.
Proof.
  intros Hvalid H1 H2.
  pose proof (function_heap_prefix operator_name_of tensor_name_of Make env
                inputs outputs givens updater s) as Hpre.
  rewrite H1 in Hpre. simpl in Hpre.
  apply function_graph in H1 as (g1 & Hg1 & _ & Hop1).
  apply function_graph in H2 as (g2 & Hg2 & _ & Hop2).
  exists g1, g2. unfold compiled_graph. rewrite Hg1, Hg2, !last_snoc.
  split; [done|]. split; [done|].
  rewrite Hop1, Hop2.
  rewrite !forward_values_valid by eauto using refs_valid_prefix.
  by rewrite (compiled_forward_prefix (heap s) (heap s1)).
Qed.

Lemma function_deterministic_witness :
  let givens := Some [(demo_a, GTensor demo_b)] in
  let r1 := function demo_operator_name demo_tensor_name demo_Make demo_env
                     ArgNone (ArgTensor demo_y) givens None demo_state in
  let r2 := function demo_operator_name demo_tensor_name demo_Make demo_env
                     ArgNone (ArgTensor demo_y) givens None r1.2 in
  ∃ g1 g2, compiled_graph r1.2 = Some g1 ∧ compiled_graph r2.2 = Some g2 ∧
           op g1 = op g2.
Proof.
  intros givens r1 r2.
  eapply (function_deterministic demo_operator_name demo_tensor_name
            demo_Make demo_env ArgNone (ArgTensor demo_y) givens None
            demo_state).
  - split.
    + intros t k l Ht Hin. demo_elems; lia.
    + intros items a t k l Hg Ha Hin. subst givens. demo_elems; lia.
  - vm_compute. reflexivity.
  - vm_compute. reflexivity.
Defined.

(** C9: a compilation never writes to an operator object that existed
    before the call.  The heap it leaves extends the heap it found, so the
    operator definitions behind every output's expressions are unchanged;
    rewriting only ever touches the deep copies. *)
Theorem function_keeps_operators operator_name_of tensor_name_of Make env
    inputs outputs givens updater s :
  heap s `prefix_of`
  heap (function operator_name_of tensor_name_of Make env
                 inputs outputs givens updater s).2.
Proof. apply function_heap_prefix. Qed.

(** C10 as stated fails: with no outputs and no updater, a [givens] that
    substitutes in a tensor with a defining operator leaves that operator
    in the registered graph. *)
Lemma function_no_outputs_counterexample :
  ∃ g, compiled_graph
         (function demo_operator_name demo_tensor_name demo_Make demo_env
                   ArgNone ArgNone (Some [(demo_a, GTensor demo_b)]) None
                   demo_state).2 = Some g ∧
       op g ≠ [].
Proof. eexists. split; [vm_compute; reflexivity|done]. Qed.

(** C10, amended: a call with no outputs and no updater succeeds.  It
    registers a graph named [Graph_<n>] for the current graph index, a
    name no other index gives, with no target, gradient target, update
    target, argument, device option or debug/share flag, and returns the
    callable for it.  The operators of the graph are the defining
    operators of the tensors that [givens] substitutes in; there are none
    when [givens] is [None]. *)
Theorem function_no_outputs_no_updater operator_name_of tensor_name_of Make
    env inputs outputs givens s :
  as_list outputs = [] →
  ∃ s' ops,
    function operator_name_of tensor_name_of Make env
             inputs outputs givens None s =
      (inr (mkCallable ("Graph_" +:+ pretty (CURRENT_GRAPH_IDX s))
                       (as_list inputs) [], None), s') ∧
    graphs s' =
      graphs s ++
      [mkGraphDef ("Graph_" +:+ pretty (CURRENT_GRAPH_IDX s)) ops
                  [] [] [] [] None false false] ∧
    CURRENT_GRAPH_IDX s' = S (CURRENT_GRAPH_IDX s) ∧
    ops = match givens with
          | None => []
          | Some items =>
              map (deref (heap s))
                  (dict_values (external_input_exprs_of items []))
          end ∧
    (∀ n, n ≠ CURRENT_GRAPH_IDX s →
          "Graph_" +:+ pretty n ≠ "Graph_" +:+ pretty (CURRENT_GRAPH_IDX s)).
Proof.
  intros Hout.
  destruct (function_run operator_name_of tensor_name_of Make env
              inputs outputs givens None s) as (s1 & _ & Hg & Hi & _ & Hrun).
  { apply andb_false_r. }
  rewrite Hrun, Hout. rewrite assembled_no_outputs.
  unfold bind, inject, CreateGraph. simpl.
  eexists _, _. split; [reflexivity|]. simpl. rewrite Hg, Hi.
  split; [done|]. split; [done|]. split.
  - unfold forward_values, forward_heap. simpl.
    destruct givens as [items|]; [|done]. simpl.
    by rewrite app_nil_r.
  - intros n Hn Heq. by apply graph_name_inj in Heq.
Qed.

Lemma function_no_outputs_no_updater_witness :
  as_list ArgNone = [] ∧
  ∃ s' ops,
    function demo_operator_name demo_tensor_name demo_Make demo_env
             (ArgTensor demo_a) ArgNone None None demo_state =
      (inr (mkCallable ("Graph_" +:+ pretty (CURRENT_GRAPH_IDX demo_state))
                       (as_list (ArgTensor demo_a)) [], None), s') ∧
    graphs s' =
      graphs demo_state ++
      [mkGraphDef ("Graph_" +:+ pretty (CURRENT_GRAPH_IDX demo_state)) ops
                  [] [] [] [] None false false] ∧
    CURRENT_GRAPH_IDX s' = S (CURRENT_GRAPH_IDX demo_state) ∧
    ops = [] ∧
    (∀ n, n ≠ CURRENT_GRAPH_IDX demo_state →
          "Graph_" +:+ pretty n ≠
          "Graph_" +:+ pretty (CURRENT_GRAPH_IDX demo_state)).
Proof.
  split; [done|].
  apply (function_no_outputs_no_updater demo_operator_name demo_tensor_name
           demo_Make demo_env (ArgTensor demo_a) ArgNone None demo_state).
  done.
Defined.

(** * Further properties of the compiler *)

(** ** Sets *)

Section pyset_facts.
Context {A : Type} `{EqDecision A}.
Implicit Types (s t : list A) (x y : A).

Lemma set_add_elem s x y : y ∈ set_add s x ↔ y ∈ s ∨ y = x.
Proof.
  unfold set_add. destruct (decide (x ∈ s)) as [Hin|Hnin].
  - split; [auto|]. intros [? | ->]; done.
  - rewrite elem_of_app, list_elem_of_singleton. done.
Qed.

Lemma set_add_NoDup s x : NoDup s → NoDup (set_add s x).
Proof.
  intros Hs. unfold set_add. destruct (decide (x ∈ s)) as [Hin|Hnin]; [done|].
  apply NoDup_app. split; [done|]. split; [|apply NoDup_singleton].
  intros y Hy Hy'. apply list_elem_of_singleton in Hy'. by subst.
Qed.

Lemma set_union_elem s t y : y ∈ set_union s t ↔ y ∈ s ∨ y ∈ t.
Proof.
  unfold set_union. revert s. induction t as [|x t IH]; intros s; simpl.
  - rewrite elem_of_nil. tauto.
  - rewrite IH, set_add_elem, elem_of_cons. tauto.
Qed.

Lemma set_union_NoDup s t : NoDup s → NoDup (set_union s t).
Proof.
  unfold set_union. revert s. induction t as [|x t IH]; intros s Hs; simpl.
  - done.
  - apply IH. by apply set_add_NoDup.
Qed.
End pyset_facts.

(** ** The targets and the gradient targets *)

Lemma extract_extra_targets_elem acc outputs x :
  x ∈ all_extra_targets (fold_left extract_step outputs acc) ↔
  x ∈ all_extra_targets acc ∨ ∃ t, t ∈ outputs ∧ x ∈ extra_targets t.
Proof.
  revert acc. induction outputs as [|t ts IH]; intros acc; simpl.
  - split; [auto|]. intros [?|(t & Hin & _)]; [done|].
    by apply elem_of_nil in Hin.
  - rewrite IH. simpl. rewrite set_union_elem. split.
    + intros [[?|?]|(t' & ? & ?)]; [by left| |].
      * right. exists t. split; [apply list_elem_of_here|done].
      * right. exists t'. split; [by apply list_elem_of_further|done].
    + intros [?|(t' & Hin & ?)]; [by left; left|].
      apply elem_of_cons in Hin as [->|Hin]; [by left; right|].
      right. by exists t'.
Qed.

Lemma extract_extra_targets_NoDup acc outputs :
  NoDup (all_extra_targets acc) →
  NoDup (all_extra_targets (fold_left extract_step outputs acc)).
Proof.
  revert acc. induction outputs as [|t ts IH]; intros acc Hnd; simpl; [done|].
  apply IH. simpl. by apply set_union_NoDup.
Qed.

Lemma assembled_target Make idx outputs fwd :
  target (assembled Make idx outputs fwd) =
  map tensor_name outputs ++
  all_extra_targets (extract (set_name empty_GraphDef
                                       ("Graph_" +:+ pretty idx)) outputs).
Proof.
  unfold assembled.
  set (ex := extract _ outputs).
  assert (target (ex_graph_def ex) = map tensor_name outputs) as Ht.
  { unfold ex, extract. by rewrite extract_graph_def. }
  destruct (existing_grads ex); [destruct (Make _ _)|]; simpl; by rewrite Ht.
Qed.

Lemma all_pairs_fold_elem (targets : list Tensor) pairs co w :
  (co, w) ∈ fold_left
              (λ pairs target,
                 fold_left (λ pairs wrt, set_add pairs (tensor_name target, wrt))
                           (grad_wrts target) pairs)
              targets pairs ↔
  (co, w) ∈ pairs ∨ ∃ t, t ∈ targets ∧ co = tensor_name t ∧ w ∈ grad_wrts t.
Proof.
  assert (∀ (nm : string) (wrts : list string)
            (pairs : list (string * string)),
            (co, w) ∈ fold_left (λ pairs wrt, set_add pairs (nm, wrt))
                                wrts pairs ↔
            (co, w) ∈ pairs ∨ (co = nm ∧ w ∈ wrts)) as Hinner.
  { intros nm wrts. induction wrts as [|x wrts IH]; intros ps; simpl.
    - rewrite elem_of_nil. tauto.
    - rewrite IH, set_add_elem, elem_of_cons. split.
      + intros [[?|[= -> ->]]|[? ?]]; auto.
      + intros [?|[-> [->|?]]]; auto. }
  revert pairs. induction targets as [|t ts IH]; intros pairs; simpl.
  - split; [auto|]. intros [?|(t & Hin & _)]; [done|].
    by apply elem_of_nil in Hin.
  - rewrite IH, Hinner. split.
    + intros [[?|[-> ?]]|(t' & ? & ? & ?)]; [by left| |].
      * right. exists t. split; [apply list_elem_of_here|done].
      * right. exists t'. split; [by apply list_elem_of_further|done].
    + intros [?|(t' & Hin & -> & ?)]; [by left; left|].
      apply elem_of_cons in Hin as [->|Hin]; [by left; right|].
      right. by exists t'.
Qed.

Lemma all_pairs_fold_NoDup (targets : list Tensor) pairs :
  NoDup pairs →
  NoDup (fold_left
           (λ pairs target,
              fold_left (λ pairs wrt, set_add pairs (tensor_name target, wrt))
                        (grad_wrts target) pairs)
           targets pairs).
Proof.
  assert (∀ (nm : string) (wrts : list string)
            (pairs : list (string * string)),
            NoDup pairs →
            NoDup (fold_left (λ pairs wrt, set_add pairs (nm, wrt))
                             wrts pairs)) as Hinner.
  { intros nm wrts. induction wrts as [|x wrts IH]; intros ps Hps; simpl.
    - done.
    - apply IH. by apply set_add_NoDup. }
  revert pairs. induction targets as [|t ts IH]; intros pairs Hnd; simpl.
  - done.
  - apply IH. by apply Hinner.
Qed.

Lemma GraphDef_Grad_fields g targets :
  let g' := GraphDef_Grad g targets in
  name g' = name g ∧ op g' = op g ∧ target g' = target g ∧
  g_target g' =
    g_target g ++ map (λ p, mkGradientTarget p.1 p.2) (all_pairs targets) ∧
  u_target g' = u_target g ∧ arg g' = arg g ∧
  device_option g' = device_option g ∧
  debug_mode g' = debug_mode g ∧ share_grads g' = share_grads g.
Proof.
  unfold GraphDef_Grad. generalize (all_pairs targets). intros pairs.
  revert g. induction pairs as [|p pairs IH]; intros g; simpl.
  - by rewrite app_nil_r.
  - destruct (IH (extend_g_target g [mkGradientTarget p.1 p.2]))
      as (-> & -> & -> & -> & -> & -> & -> & -> & ->).
    simpl. by rewrite <- app_assoc.
Qed.

Section outputs_runs.
Variable operator_name_of : nat → string.
Variable tensor_name_of : nat → string.
Variable Make :
  list OperatorDef → list string → list OperatorDef * list OperatorDef.
Variable env : Ambient.

(** A call with outputs and no updater, up to the device injector: it
    raises what the injector raises, and otherwise registers the graph
    with the options, the gradient targets and the phase injected. *)
Lemma function_outputs_run inputs outputs givens s :
  0 < length (as_list outputs) →
  ∃ s1 g0,
    g0 = assembled Make (CURRENT_GRAPH_IDX s) (as_list outputs)
           (forward_values givens (heap s) (merged_refs (as_list outputs))) ∧
    graphs s1 = graphs s ∧
    CURRENT_GRAPH_IDX s1 = S (CURRENT_GRAPH_IDX s) ∧
    function operator_name_of tensor_name_of Make env
             inputs outputs givens None s =
      match GraphDef_Device env g0 with
      | inl e => (inl e, s1)
      | inr gd =>
          let g := GraphDef_Phase env
                     (GraphDef_Grad (GraphDef_Opt env gd) (as_list outputs))
                     (as_list outputs) in
          (inr (mkCallable (name g) (as_list inputs) (as_list outputs), None),
           mkState (heap s1) (CURRENT_GRAPH_IDX s1) (graphs s1 ++ [g])
                   (feeds s1) (operator_idx s1) (tensor_idx s1))
      end.
Proof.
  intros Hlen.
  destruct (function_run operator_name_of tensor_name_of Make env
              inputs outputs givens None s) as (s1 & _ & Hg & Hi & _ & Hrun).
  { apply andb_false_r. }
  eexists s1, _. split; [reflexivity|]. split; [done|]. split; [done|].
  rewrite Hrun. unfold bind at 1, inject.
  rewrite bool_decide_true by done.
  unfold bind at 1, lift.
  by destruct (GraphDef_Device env _).
Qed.
End outputs_runs.

Lemma GraphDef_Device_supported env g :
  device_supported env →
  GraphDef_Device env g =
    inr (mkGraphDef (name g) (op g) (target g) (g_target g) (u_target g)
           (arg g)
           (if decide (opt_device (option_ env) = "None") then device_option g
            else Some (mkDeviceOption
                         (if decide (opt_device (option_ env) = "CPU")
                          then 0%Z else 1%Z)
                         (opt_gpu_id (option_ env))
                         (opt_random_seed (option_ env))
                         (if opt_use_cudnn (option_ env) then "CUDNN"
                          else "")))
           (debug_mode g) (share_grads g)).
Proof.
  unfold device_supported, GraphDef_Device. intros Hdev.
  repeat (apply elem_of_cons in Hdev as [Hdev|Hdev]; [|]);
    try (by apply elem_of_nil in Hdev); rewrite Hdev; simpl; by destruct g.
Qed.

Lemma GraphDef_Device_unsupported env g :
  ¬ device_supported env →
  GraphDef_Device env g = inl (KeyError (opt_device (option_ env))).
Proof.
  unfold device_supported, GraphDef_Device. intros Hdev.
  rewrite !not_elem_of_cons in Hdev. destruct Hdev as (Hn & Hc & Hg & _).
  rewrite decide_True by done. simpl.
  rewrite !decide_False by done. done.
Qed.

Global Instance gradient_target_of_pair_inj :
  Inj (=) (=) (λ p : string * string, mkGradientTarget p.1 p.2).
Proof. intros [c1 w1] [c2 w2]. simpl. by intros [= -> ->]. Qed.

(** The graph a call with outputs registers, field by field. *)
Lemma function_outputs_graph operator_name_of tensor_name_of Make env
    inputs outputs givens s :
  0 < length (as_list outputs) → device_supported env →
  ∃ s' g,
    function operator_name_of tensor_name_of Make env
             inputs outputs givens None s =
      (inr (mkCallable (name g) (as_list inputs) (as_list outputs), None),
       s') ∧
    graphs s' = graphs s ++ [g] ∧
    CURRENT_GRAPH_IDX s' = S (CURRENT_GRAPH_IDX s) ∧
    name g = "Graph_" +:+ pretty (CURRENT_GRAPH_IDX s) ∧
    target g =
      map tensor_name (as_list outputs) ++
      all_extra_targets
        (extract (set_name empty_GraphDef
                    ("Graph_" +:+ pretty (CURRENT_GRAPH_IDX s)))
                 (as_list outputs)) ∧
    g_target g =
      map (λ p, mkGradientTarget p.1 p.2) (all_pairs (as_list outputs)) ∧
    u_target g = [] ∧
    device_option g =
      (if decide (opt_device (option_ env) = "None") then None
       else Some (mkDeviceOption
                    (if decide (opt_device (option_ env) = "CPU")
                     then 0%Z else 1%Z)
                    (opt_gpu_id (option_ env))
                    (opt_random_seed (option_ env))
                    (if opt_use_cudnn (option_ env) then "CUDNN" else ""))) ∧
    debug_mode g = opt_debug_mode (option_ env) ∧
    share_grads g = opt_share_grads (option_ env).
Proof.
  intros Hlen Hdev.
  destruct (function_outputs_run operator_name_of tensor_name_of Make env
              inputs outputs givens s Hlen)
    as (s1 & g0 & Hg0 & Hg & Hi & Hrun).
  rewrite Hrun, (GraphDef_Device_supported env g0 Hdev).
  eexists _, _. split; [reflexivity|]. simpl.
  pose proof (assembled_fields Make (CURRENT_GRAPH_IDX s) (as_list outputs)
                (forward_values givens (heap s)
                   (merged_refs (as_list outputs))))
    as (Hname & _ & Hgt & Hut & _ & Hdo & _).
  pose proof (assembled_target Make (CURRENT_GRAPH_IDX s) (as_list outputs)
                (forward_values givens (heap s)
                   (merged_refs (as_list outputs)))) as Htarget.
  rewrite <- Hg0 in Hname, Hgt, Hut, Hdo, Htarget.
  match goal with |- context [GraphDef_Grad ?g1 ?ts] =>
    destruct (GraphDef_Grad_fields g1 ts)
      as (Hn' & _ & Ht' & Hgt' & Hut' & _ & Hdo' & Hdm' & Hsg')
  end.
  rewrite Hn', Ht', Hgt', Hut', Hdo', Hdm', Hsg'. simpl.
  rewrite Hg, Hi, Hname, Htarget, Hgt, Hut, Hdo. done.
Qed.

(** ** Gradient targets, targets and options of a compiled graph *)

(** X1: the gradient targets of a graph compiled for outputs are the
    (cost, wrt) pairs of the outputs' grad-wrt requests, each pair once,
    however often and by however many requests it is made. *)
Theorem function_gradient_targets operator_name_of tensor_name_of Make env
    inputs outputs givens s :
  0 < length (as_list outputs) → device_supported env →
  ∃ c s' g,
    function operator_name_of tensor_name_of Make env
             inputs outputs givens None s = (inr (c, None), s') ∧
    compiled_graph s' = Some g ∧
    NoDup (g_target g) ∧
    ∀ co w, mkGradientTarget co w ∈ g_target g ↔
            ∃ t, t ∈ as_list outputs ∧ co = tensor_name t ∧ w ∈ grad_wrts t.
Proof.
  intros Hlen Hdev.
  destruct (function_outputs_graph operator_name_of tensor_name_of Make env
              inputs outputs givens s Hlen Hdev)
    as (s' & g & Hrun & Hg & _ & _ & _ & Hgt & _).
  eexists _, s', g. split; [exact Hrun|].
  split; [unfold compiled_graph; by rewrite Hg, last_snoc|].
  rewrite Hgt. change (map ?f ?l) with (f <$> l). split.
  - apply (NoDup_fmap_2 _). apply all_pairs_fold_NoDup. apply NoDup_nil_2.
  - intros co w. rewrite list_elem_of_fmap. split.
    + intros ([co' w'] & [= -> ->] & Hin).
      apply all_pairs_fold_elem in Hin as [Hin|?]; [|done].
      by apply elem_of_nil in Hin.
    + intros Hex. exists (co, w). split; [done|].
      apply all_pairs_fold_elem. by right.
Qed.

Lemma function_gradient_targets_witness :
  ∃ c s' g,
    function demo_operator_name demo_tensor_name demo_Make demo_env
             ArgNone (ArgList [demo_loss; demo_aux]) None None demo_state =
      (inr (c, None), s') ∧
    compiled_graph s' = Some g ∧
    NoDup (g_target g) ∧
    ∀ co w, mkGradientTarget co w ∈ g_target g ↔
            ∃ t, t ∈ as_list (ArgList [demo_loss; demo_aux]) ∧
                 co = tensor_name t ∧ w ∈ grad_wrts t.
Proof.
  apply function_gradient_targets.
  - simpl. lia.
  - unfold device_supported. simpl. apply list_elem_of_here.
Defined.

(** X2: the targets of a graph compiled for outputs are the names of the
    outputs, in the order they were given, followed by the extra targets
    of the outputs, each extra target once. *)
Theorem function_targets operator_name_of tensor_name_of Make env
    inputs outputs givens s :
  0 < length (as_list outputs) → device_supported env →
  ∃ c s' g extra,
    function operator_name_of tensor_name_of Make env
             inputs outputs givens None s = (inr (c, None), s') ∧
    compiled_graph s' = Some g ∧
    target g = map tensor_name (as_list outputs) ++ extra ∧
    NoDup extra ∧
    ∀ x, x ∈ extra ↔ ∃ t, t ∈ as_list outputs ∧ x ∈ extra_targets t.
Proof.
  intros Hlen Hdev.
  destruct (function_outputs_graph operator_name_of tensor_name_of Make env
              inputs outputs givens s Hlen Hdev)
    as (s' & g & Hrun & Hg & _ & _ & Ht & _).
  eexists _, s', g, _. split; [exact Hrun|].
  split; [unfold compiled_graph; by rewrite Hg, last_snoc|].
  split; [exact Ht|]. unfold extract. split.
  - apply extract_extra_targets_NoDup. apply NoDup_nil_2.
  - intros x. rewrite extract_extra_targets_elem. simpl.
    split; [|auto]. intros [Hin|?]; [|done]. by apply elem_of_nil in Hin.
Qed.

Lemma function_targets_witness :
  ∃ c s' g extra,
    function demo_operator_name demo_tensor_name demo_Make demo_env
             ArgNone (ArgList [demo_loss; demo_aux]) None None demo_state =
      (inr (c, None), s') ∧
    compiled_graph s' = Some g ∧
    target g = map tensor_name (as_list (ArgList [demo_loss; demo_aux])) ++
               extra ∧
    NoDup extra ∧
    ∀ x, x ∈ extra ↔
         ∃ t, t ∈ as_list (ArgList [demo_loss; demo_aux]) ∧
              x ∈ extra_targets t.
Proof.
  apply function_targets.
  - simpl. lia.
  - unfold device_supported. simpl. apply list_elem_of_here.
Defined.

(** X3: a graph compiled for outputs takes its debug and share flags from
    the configuration, and its device option too: none for the device
    [None], type 0 for [CPU] and 1 for [CUDA], with the configured GPU
    index and random seed and with the engine [CUDNN] exactly when cuDNN
    is switched on. *)
Theorem function_device_and_options operator_name_of tensor_name_of Make env
    inputs outputs givens s :
  0 < length (as_list outputs) → device_supported env →
  ∃ c s' g,
    function operator_name_of tensor_name_of Make env
             inputs outputs givens None s = (inr (c, None), s') ∧
    compiled_graph s' = Some g ∧
    debug_mode g = opt_debug_mode (option_ env) ∧
    share_grads g = opt_share_grads (option_ env) ∧
    (opt_device (option_ env) = "None" → device_option g = None) ∧
    (∀ ty, (opt_device (option_ env), ty) ∈ [("CPU", 0%Z); ("CUDA", 1%Z)] →
           device_option g =
             Some (mkDeviceOption ty (opt_gpu_id (option_ env))
                     (opt_random_seed (option_ env))
                     (if opt_use_cudnn (option_ env) then "CUDNN" else ""))).
Proof.
  intros Hlen Hdev.
  destruct (function_outputs_graph operator_name_of tensor_name_of Make env
              inputs outputs givens s Hlen Hdev)
    as (s' & g & Hrun & Hg & _ & _ & _ & _ & _ & Hdo & Hdm & Hsg).
  eexists _, s', g. split; [exact Hrun|].
  split; [unfold compiled_graph; by rewrite Hg, last_snoc|].
  split; [done|]. split; [done|]. rewrite Hdo. split.
  - intros ->. done.
  - intros ty Hty.
    apply elem_of_cons in Hty as [[= -> <-]|Hty]; [done|].
    apply elem_of_cons in Hty as [[= -> <-]|Hty]; [done|].
    by apply elem_of_nil in Hty.
Qed.

Lemma function_device_and_options_witness :
  ∃ c s' g,
    function demo_operator_name demo_tensor_name demo_Make demo_env_cuda
             ArgNone (ArgTensor demo_loss) None None demo_state =
      (inr (c, None), s') ∧
    compiled_graph s' = Some g ∧
    debug_mode g = opt_debug_mode (option_ demo_env_cuda) ∧
    share_grads g = opt_share_grads (option_ demo_env_cuda) ∧
    (opt_device (option_ demo_env_cuda) = "None" → device_option g = None) ∧
    (∀ ty, (opt_device (option_ demo_env_cuda), ty) ∈
             [("CPU", 0%Z); ("CUDA", 1%Z)] →
           device_option g =
             Some (mkDeviceOption ty (opt_gpu_id (option_ demo_env_cuda))
                     (opt_random_seed (option_ demo_env_cuda))
                     (if opt_use_cudnn (option_ demo_env_cuda) then "CUDNN"
                      else ""))).
Proof.
  apply function_device_and_options.
  - simpl. lia.
  - unfold device_supported. simpl.
    apply list_elem_of_further, list_elem_of_further, list_elem_of_here.
Defined.

(** ** Outcomes of a call *)

(** A call that passes the argument check uses up one graph index; it
    either fails and registers nothing, or registers one graph named after
    the index and returns the callable for it. *)
Lemma function_outcome operator_name_of tensor_name_of Make env
    inputs outputs givens updater s :
  bool_decide (0 < length (as_list outputs)) && bool_decide (is_Some updater)
    = false →
  ∃ r s',
    function operator_name_of tensor_name_of Make env
             inputs outputs givens updater s = (r, s') ∧
    CURRENT_GRAPH_IDX s' = S (CURRENT_GRAPH_IDX s) ∧
    match r with
    | inl _ => graphs s' = graphs s
    | inr (c, _) =>
        ∃ g, graphs s' = graphs s ++ [g] ∧
             name g = "Graph_" +:+ pretty (CURRENT_GRAPH_IDX s) ∧
             c = mkCallable (name g) (as_list inputs) (as_list outputs)
    end.
Proof.
  intros Hc.
  destruct (function_run operator_name_of tensor_name_of Make env
              inputs outputs givens updater s Hc)
    as (s1 & _ & Hg & Hi & _ & Hrun).
  rewrite Hrun. unfold bind at 1.
  match goal with |- context [inject ?a ?b ?g0 ?d ?e s1] =>
    pose proof (stable_inject a b g0 d e s1) as (_ & Hfg & Hfi);
    destruct (inject a b g0 d e s1) as [[e'|[g' u1]] s2] eqn:Hinj
  end; simpl in Hfg, Hfi.
  - eexists _, _. split; [reflexivity|]. simpl. by rewrite Hfg, Hfi, Hg, Hi.
  - eexists _, _. split; [reflexivity|]. simpl. rewrite Hfi, Hi.
    split; [done|]. exists g'. rewrite Hfg, Hg.
    apply inject_fields in Hinj as (-> & _ & _).
    pose proof (assembled_fields Make (CURRENT_GRAPH_IDX s) (as_list outputs)
                  (forward_values givens (heap s)
                     (merged_refs (as_list outputs)))) as (-> & _).
    done.
Qed.

(** X4: with a device the code does not support, a compilation for outputs
    or for an updater raises [KeyError] for the device.  The graph index
    is used up all the same, and no graph is registered. *)
Theorem function_unsupported_device operator_name_of tensor_name_of Make env
    inputs outputs givens updater s :
  ¬ device_supported env →
  0 < length (as_list outputs) ∨ is_Some updater →
  ¬ (0 < length (as_list outputs) ∧ is_Some updater) →
  ∃ s',
    function operator_name_of tensor_name_of Make env
             inputs outputs givens updater s =
      (inl (KeyError (opt_device (option_ env))), s') ∧
    graphs s' = graphs s ∧
    CURRENT_GRAPH_IDX s' = S (CURRENT_GRAPH_IDX s).
Proof.
  intros Hdev Hsome Hnc.
  assert (bool_decide (0 < length (as_list outputs)) &&
          bool_decide (is_Some updater) = false) as Hc.
  { apply andb_false_iff.
    destruct (decide (0 < length (as_list outputs))) as [Hlen|Hlen].
    - right. apply bool_decide_eq_false. tauto.
    - left. by apply bool_decide_eq_false. }
  destruct (function_run operator_name_of tensor_name_of Make env
              inputs outputs givens updater s Hc)
    as (s1 & _ & Hg & Hi & _ & Hrun).
  exists s1. rewrite Hrun. split; [|done].
  unfold bind at 1, inject.
  destruct (decide (0 < length (as_list outputs))) as [Hlen|Hlen].
  - rewrite bool_decide_true by done.
    unfold bind at 1, lift. by rewrite GraphDef_Device_unsupported.
  - rewrite bool_decide_false by done.
    rewrite bool_decide_true by tauto.
    unfold bind at 1, lift. by rewrite GraphDef_Device_unsupported.
Qed.

Lemma function_unsupported_device_witness :
  ∃ s',
    function demo_operator_name demo_tensor_name demo_Make demo_env_unknown
             ArgNone (ArgTensor demo_y) None None demo_state =
      (inl (KeyError (opt_device (option_ demo_env_unknown))), s') ∧
    graphs s' = graphs demo_state ∧
    CURRENT_GRAPH_IDX s' = S (CURRENT_GRAPH_IDX demo_state).
Proof.
  apply function_unsupported_device.
  - unfold device_supported. simpl. intros Hin.
    repeat (apply elem_of_cons in Hin as [Hin|Hin]; [done|]).
    by apply elem_of_nil in Hin.
  - left. simpl. lia.
  - intros [_ [u Hu]]. done.
Defined.

(** X5: if the registered graphs are named after graph indices below the
    counter, each after its own, then they still are after a call,
    whatever its outcome: the graph a call registers never takes the name
    of a graph that is there already. *)
Theorem function_graph_names operator_name_of tensor_name_of Make env
    inputs outputs givens updater s :
  graph_names_ok s →
  graph_names_ok (function operator_name_of tensor_name_of Make env
                           inputs outputs givens updater s).2.
Proof.
  intros [Hnd Hnames].
  destruct (bool_decide (0 < length (as_list outputs)) &&
            bool_decide (is_Some updater)) eqn:Hc.
  { unfold function. rewrite Hc. by split. }
  destruct (function_outcome operator_name_of tensor_name_of Make env
              inputs outputs givens updater s Hc)
    as (r & s' & -> & Hi & Hr).
  simpl. unfold graph_names_ok. rewrite Hi.
  destruct r as [e|[c u']].
  - rewrite Hr. split; [done|]. intros g Hg.
    destruct (Hnames g Hg) as (i & Hlt & Hn). exists i. split; [lia|done].
  - destruct Hr as (g & -> & Hname & _). split.
    + rewrite fmap_app. apply NoDup_app. split; [done|].
      split; [|apply NoDup_singleton].
      intros n Hn Hn'. apply list_elem_of_singleton in Hn'. subst n.
      apply list_elem_of_fmap in Hn as (g' & Heq & Hg').
      destruct (Hnames g' Hg') as (i & Hlt & Hn).
      rewrite Hname, Hn in Heq. apply graph_name_inj in Heq. lia.
    + intros g' Hg'. apply elem_of_app in Hg' as [Hg'|Hg'].
      * destruct (Hnames g' Hg') as (i & Hlt & Hn).
        exists i. split; [lia|done].
      * apply list_elem_of_singleton in Hg' as ->.
        exists (CURRENT_GRAPH_IDX s). split; [lia|done].
Qed.

Lemma function_graph_names_witness :
  graph_names_ok
    (function demo_operator_name demo_tensor_name demo_Make demo_env
              ArgNone (ArgTensor demo_y) None None
              (function demo_operator_name demo_tensor_name demo_Make demo_env
                        ArgNone (ArgTensor demo_c) None None demo_state).2).2.
Proof.
  apply function_graph_names, function_graph_names.
  split; [apply NoDup_nil_2|]. intros g Hg. by apply elem_of_nil in Hg.
Defined.

(** X6: a successful call registers exactly one more graph, named after
    the graph index it found, moves the index on by one, and returns the
    callable that runs that graph with the inputs and the outputs as
    lists: a single tensor becomes the list of it, [None] the empty
    list. *)
Theorem function_callable operator_name_of tensor_name_of Make env
    inputs outputs givens updater s c u' s' :
  function operator_name_of tensor_name_of Make env
           inputs outputs givens updater s = (inr (c, u'), s') →
  ∃ g, graphs s' = graphs s ++ [g] ∧
       CURRENT_GRAPH_IDX s' = S (CURRENT_GRAPH_IDX s) ∧
       name g = "Graph_" +:+ pretty (CURRENT_GRAPH_IDX s) ∧
       run_graph c = name g ∧
       run_inputs c = match inputs with
                      | ArgNone => []
                      | ArgTensor t => [t]
                      | ArgList l => l
                      end ∧
       run_outputs c = match outputs with
                       | ArgNone => []
                       | ArgTensor t => [t]
                       | ArgList l => l
                       end.
Proof.
  intros Hrun.
  destruct (bool_decide (0 < length (as_list outputs)) &&
            bool_decide (is_Some updater)) eqn:Hc.
  { unfold function in Hrun. rewrite Hc in Hrun. done. }
  destruct (function_outcome operator_name_of tensor_name_of Make env
              inputs outputs givens updater s Hc)
    as (r & s2 & Hrun' & Hi & Hr).
  rewrite Hrun in Hrun'. injection Hrun' as <- <-.
  destruct Hr as (g & Hg & Hname & ->). exists g. done.
Qed.

Lemma function_callable_witness :
  let r := function demo_operator_name demo_tensor_name demo_Make demo_env
                    (ArgTensor demo_a) (ArgTensor demo_y) None None
                    demo_state in
  ∃ c g, r.1 = inr (c, None) ∧
       graphs r.2 = graphs demo_state ++ [g] ∧
       CURRENT_GRAPH_IDX r.2 = S (CURRENT_GRAPH_IDX demo_state) ∧
       name g = "Graph_" +:+ pretty (CURRENT_GRAPH_IDX demo_state) ∧
       run_graph c = name g ∧
       run_inputs c = [demo_a] ∧
       run_outputs c = [demo_y].
Proof.
  intros r.
  destruct (function_callable demo_operator_name demo_tensor_name demo_Make
              demo_env (ArgTensor demo_a) (ArgTensor demo_y) None None
              demo_state (mkCallable "Graph_0" [demo_a] [demo_y]) None r.2)
    as (g & Hg); [vm_compute; reflexivity|].
  exists (mkCallable "Graph_0" [demo_a] [demo_y]), g.
  split; [vm_compute; reflexivity|exact Hg].
Defined.

(** ** The operators of a graph compiled without givens *)

Lemma sorted_items_strict d i j x y :
  NoDup (dict_keys d) →
  sorted_items d !! i = Some x → sorted_items d !! j = Some y →
  i < j → x.1 < y.1.
Proof.
  intros Hnd Hi Hj Hij.
  assert (key_le x y) as Hle.
  { eapply (StronglySorted_lookup key_le _ i j); eauto using sorted_items_sorted. }
  unfold key_le in Hle.
  destruct (decide (x.1 = y.1)) as [Heq|Hne]; [|lia].
  assert (NoDup (sorted_items d).*1) as Hnd'.
  { by rewrite sorted_items_Permutation. }
  assert (i = j); [|lia].
  apply (NoDup_lookup _ i j x.1 Hnd').
  - by rewrite list_lookup_fmap, Hi.
  - by rewrite list_lookup_fmap, Hj, Heq.
Qed.

(** X7: without givens, the operators of the registered graph are read
    off the outputs' expressions: one operator per operator index of the
    outputs, in strictly increasing order of the index, with the contents
    it has in the heap.  If no output has a grad-wrt request these are all
    the operators of the graph and the gradient maker is not asked;
    otherwise they are handed to the gradient maker with the names of the
    outputs, in order, and the graph holds the forward list it returns
    followed by the backward list. *)
Theorem function_operators_without_givens operator_name_of tensor_name_of
    Make env inputs outputs updater s c u' s' :
  (∀ t k l, t ∈ as_list outputs → (k, l) ∈ expressions t →
            l < length (heap s)) →
  function operator_name_of tensor_name_of Make env
           inputs outputs None updater s = (inr (c, u'), s') →
  ∃ g items,
    compiled_graph s' = Some g ∧
    (∀ k, k ∈ items.*1 ↔
          ∃ t, t ∈ as_list outputs ∧ k ∈ (expressions t).*1) ∧
    (∀ k l, (k, l) ∈ items →
            ∃ t, t ∈ as_list outputs ∧ (k, l) ∈ expressions t) ∧
    (∀ i j x y, items !! i = Some x → items !! j = Some y → i < j →
                x.1 < y.1) ∧
    let fwd := map (λ kl, deref (heap s) kl.2) items in
    let names := map tensor_name (as_list outputs) in
    ((∀ t, t ∈ as_list outputs → grad_wrts t = []) → op g = fwd) ∧
    ((∃ t, t ∈ as_list outputs ∧ grad_wrts t ≠ []) →
     op g = (Make fwd names).1 ++ (Make fwd names).2).
Proof.
  intros Hvalid Hrun.
  apply function_graph in Hrun as (g & Hg & _ & Hop).
  rewrite forward_values_valid in Hop.
  2:{ split; [exact Hvalid|]. intros items a t k l Hgiv. done. }
  exists g, (sorted_items (merged (as_list outputs) [])).
  split; [unfold compiled_graph; by rewrite Hg, last_snoc|].
  assert (NoDup (dict_keys (merged (as_list outputs) []))) as Hnd.
  { apply merged_NoDup. apply NoDup_nil_2. }
  split; [|split; [|split]].
  - intros k. rewrite sorted_items_Permutation.
    fold (dict_keys (merged (as_list outputs) [])). rewrite merged_keys.
    split; [|auto]. intros [Hin|?]; [|done]. by apply elem_of_nil in Hin.
  - intros k l Hin. rewrite sorted_items_Permutation in Hin.
    apply merged_elem in Hin as [Hin|?]; [|done]. by apply elem_of_nil in Hin.
  - intros i j x y. by apply sorted_items_strict.
  - simpl. unfold compiled_forward, merged_refs, dict_values in Hop.
    change (map ?f (?g <$> ?l)) with (f <$> (g <$> l)) in Hop.
    rewrite <- list_fmap_compose in Hop.
    rewrite Hop. unfold with_grads. split.
    + intros Hall. destruct (existsb _ _) eqn:Hex; [|done].
      apply existsb_grad_wrts in Hex as (t & Hin & Hne).
      by destruct Hne; apply Hall.
    + intros Hex. apply existsb_grad_wrts in Hex. by rewrite Hex.
Qed.

Lemma function_operators_without_givens_witness :
  let r := function demo_operator_name demo_tensor_name demo_Make demo_env
                    ArgNone (ArgList [demo_loss; demo_aux]) None None
                    demo_state in
  ∃ g items,
    compiled_graph r.2 = Some g ∧
    (∀ k, k ∈ items.*1 ↔
          ∃ t, t ∈ as_list (ArgList [demo_loss; demo_aux]) ∧
               k ∈ (expressions t).*1) ∧
    (∀ k l, (k, l) ∈ items →
            ∃ t, t ∈ as_list (ArgList [demo_loss; demo_aux]) ∧
                 (k, l) ∈ expressions t) ∧
    (∀ i j x y, items !! i = Some x → items !! j = Some y → i < j →
                x.1 < y.1) ∧
    let fwd := map (λ kl, deref (heap demo_state) kl.2) items in
    let names := map tensor_name (as_list (ArgList [demo_loss; demo_aux])) in
    ((∀ t, t ∈ as_list (ArgList [demo_loss; demo_aux]) → grad_wrts t = []) →
     op g = fwd) ∧
    ((∃ t, t ∈ as_list (ArgList [demo_loss; demo_aux]) ∧ grad_wrts t ≠ []) →
     op g = (demo_Make fwd names).1 ++ (demo_Make fwd names).2).
Proof.
  intros r.
  eapply (function_operators_without_givens demo_operator_name
            demo_tensor_name demo_Make demo_env ArgNone
            (ArgList [demo_loss; demo_aux]) None demo_state _ _ r.2).
  - intros t k l Ht Hin. unfold demo_loss, demo_aux in *. demo_elems; lia.
  - vm_compute. reflexivity.
Defined.

(** ** More on givens *)

Lemma substitute_nil i : substitute [] i = i.
Proof. done. Qed.

Lemma rewrite_input_nil o : rewrite_input [] o = o.
Proof.
  rewrite rewrite_input_eq. destruct o as [n t i out a]. unfold set_input.
  simpl. f_equal. induction i as [|x i IH]; simpl; [done|]. by rewrite IH.
Qed.

Lemma insert_deref h l : <[l := deref h l]> h = h.
Proof.
  destruct (h !! l) as [o|] eqn:Hl.
  - rewrite (deref_lookup _ _ _ Hl). by apply list_insert_id.
  - apply list_insert_ge. by apply lookup_ge_None.
Qed.

Lemma rewrite_ops_nil cs h : rewrite_ops [] cs h = h.
Proof.
  unfold rewrite_ops. revert h. induction cs as [|c cs IH]; intros h; simpl.
  - done.
  - by rewrite rewrite_input_nil, insert_deref, IH.
Qed.

Lemma with_heap_same s : with_heap s (heap s) = s.
Proof. by destruct s. Qed.

Lemma bind_ext {A B} (m : M A) (k1 k2 : A → M B) s :
  (∀ a s', k1 a s' = k2 a s') → bind m k1 s = bind m k2 s.
Proof.
  intros Hk. unfold bind. destruct (m s) as [[e|a] s1]; [done|]. apply Hk.
Qed.

(** X8: an empty givens mapping is as good as none: the call returns the
    same result and leaves the same state as with [givens=None]. *)
Theorem function_empty_givens operator_name_of tensor_name_of Make env
    inputs outputs updater s :
  function operator_name_of tensor_name_of Make env
           inputs outputs (Some []) updater s =
  function operator_name_of tensor_name_of Make env
           inputs outputs None updater s.
Proof.
  unfold function.
  destruct (bool_decide (0 < length (as_list outputs)) &&
            bool_decide (is_Some updater)); [done|].
  apply bind_ext. intros idx s1. apply bind_ext. intros fwd s2.
  unfold bind at 1 3.
  assert (handle_givens tensor_name_of (Some []) fwd s2 =
          handle_givens tensor_name_of None fwd s2) as ->; [|done].
  unfold handle_givens, bind, ret, get_state, set_heap. simpl.
  by rewrite rewrite_ops_nil, with_heap_same.
Qed.

Lemma rewrite_iter_fields nd o n :
  let o' := Nat.iter n (rewrite_input nd) o in
  op_name o' = op_name o ∧ type o' = type o ∧ output o' = output o ∧
  op_arg o' = op_arg o ∧ length (input o') = length (input o).
Proof.
  induction n as [|n IH]; [done|].
  rewrite Nat.iter_succ, rewrite_input_eq. simpl.
  destruct IH as (-> & -> & -> & -> & <-). by rewrite length_map.
Qed.

Lemma rewrite_ops_length nd cs h : length (rewrite_ops nd cs h) = length h.
Proof.
  unfold rewrite_ops. revert h.
  induction cs as [|c cs IH]; intros h; simpl; [done|].
  by rewrite IH, length_insert.
Qed.

(** X9: the givens stage changes input names and nothing else.  Extending
    an input list by its substituted copy and deleting the first half
    leaves as many inputs as there were; the name, the type, the outputs
    and the arguments of every operator object stay as they are. *)
Theorem handle_givens_keeps_operator_shape tensor_name_of givens forward_ops
    s :
  ∃ ops s',
    handle_givens tensor_name_of givens forward_ops s = (inr ops, s') ∧
    length (heap s') = length (heap s) ∧
    ∀ c, op_name (deref (heap s') c) = op_name (deref (heap s) c) ∧
         type (deref (heap s') c) = type (deref (heap s) c) ∧
         output (deref (heap s') c) = output (deref (heap s) c) ∧
         op_arg (deref (heap s') c) = op_arg (deref (heap s) c) ∧
         length (input (deref (heap s') c)) =
         length (input (deref (heap s) c)).
Proof.
  destruct (handle_givens_run tensor_name_of givens forward_ops s)
    as (s' & Hrun & Hh & _).
  eexists _, s'. split; [exact Hrun|]. rewrite Hh.
  destruct givens as [items|]; [|done]. split.
  - apply rewrite_ops_length.
  - intros c. rewrite rewrite_ops_deref. apply rewrite_iter_fields.
Qed.

Lemma name_dict_of_no_tensors items nd :
  (∀ a t, (a, GTensor t) ∉ items) → name_dict_of items nd = nd.
Proof.
  unfold name_dict_of. revert nd.
  induction items as [|[a new] items IH]; intros nd Hno; simpl; [done|].
  assert (∀ a t, (a, GTensor t) ∉ items) as Hno'.
  { intros a' t' Hin. apply (Hno a' t'). by apply list_elem_of_further. }
  destruct new as [t| |]; simpl; [|by apply IH..].
  destruct (Hno a t). apply list_elem_of_here.
Qed.

Lemma external_input_exprs_of_no_tensors items d :
  (∀ a t, (a, GTensor t) ∉ items) → external_input_exprs_of items d = d.
Proof.
  unfold external_input_exprs_of. revert d.
  induction items as [|[a new] items IH]; intros d Hno; simpl; [done|].
  assert (∀ a t, (a, GTensor t) ∉ items) as Hno'.
  { intros a' t' Hin. apply (Hno a' t'). by apply list_elem_of_further. }
  destruct new as [t| |]; simpl; [|by apply IH..].
  destruct (Hno a t). apply list_elem_of_here.
Qed.

(** The givens loop draws one tensor name per array replacement, in
    order, and makes one [FeedTensor] call with each. *)
Lemma givens_fold_feeds tensor_name_of items acc s :
  ∃ s', foldM (givens_step tensor_name_of) acc items s =
          (inr (name_dict_of items acc.1,
                external_input_exprs_of items acc.2), s') ∧
        heap s' = heap s ∧ graphs s' = graphs s ∧
        CURRENT_GRAPH_IDX s' = CURRENT_GRAPH_IDX s ∧
        operator_idx s' = operator_idx s ∧
        tensor_idx s' = tensor_idx s + length (given_arrays items) ∧
        feeds s' =
          feeds s ++
          imap (λ i a, (FArray a, FName (tensor_name_of (tensor_idx s + i))))
               (given_arrays items).
Proof.
  revert acc s. induction items as [|[old new] items IH]; intros [nd ee] s.
  - exists s. simpl. rewrite app_nil_r, Nat.add_0_r. done.
  - simpl. unfold bind at 1. destruct new as [t|a|]; simpl.
    + destruct (IH (dict_set (tensor_name old) (tensor_name t) nd,
                    dict_update ee (expressions t)) s) as (s' & Hrun & Hrest).
      exists s'. done.
    + match goal with |- context [foldM _ _ _ ?s1] =>
        destruct (IH (nd, ee) s1)
          as (s' & Hrun & Hh & Hg & Hi & Ho & Ht & Hf) end.
      simpl in *. exists s'. split; [done|].
      rewrite Hh, Hg, Hi, Ho, Ht, Hf.
      split; [done|]. split; [done|]. split; [done|]. split; [done|].
      split; [lia|]. rewrite <- app_assoc. simpl. rewrite Nat.add_0_r.
      do 2 f_equal. apply imap_ext. intros i x _. simpl.
      by replace (S (tensor_idx s + i)) with (tensor_idx s + S i) by lia.
    + destruct (IH (nd, ee) s) as (s' & Hrun & Hrest). exists s'. done.
Qed.

(** X10: a givens mapping in which no replacement is a tensor rewrites
    nothing and adds no operator: the forward operators come back as they
    went in and the heap is as it was.  Each array replacement costs one
    fresh tensor name and one [FeedTensor] call, made with the array and
    that name, in the order of the mapping; other replacements are
    skipped. *)
Theorem handle_givens_without_tensors tensor_name_of items forward_ops s :
  (∀ a t, (a, GTensor t) ∉ items) →
  ∃ s',
    handle_givens tensor_name_of (Some items) forward_ops s =
      (inr forward_ops, s') ∧
    heap s' = heap s ∧
    graphs s' = graphs s ∧
    tensor_idx s' = tensor_idx s + length (given_arrays items) ∧
    feeds s' =
      feeds s ++
      imap (λ i a, (FArray a, FName (tensor_name_of (tensor_idx s + i))))
           (given_arrays items).
Proof.
  intros Hno. unfold handle_givens.
  destruct (givens_fold_feeds tensor_name_of items ([], []) s)
    as (s1 & Hrun & Hh & Hg & _ & _ & Ht & Hf).
  unfold bind at 1. rewrite Hrun. simpl.
  rewrite name_dict_of_no_tensors, external_input_exprs_of_no_tensors by done.
  unfold bind, get_state, set_heap, ret. simpl.
  eexists. split; [reflexivity|]. simpl.
  by rewrite rewrite_ops_nil.
Qed.

Lemma handle_givens_without_tensors_witness :
  let items := [(demo_a, GArray demo_array); (demo_c, GOther);
                (demo_b, GArray demo_array)] in
  ∃ s',
    handle_givens demo_tensor_name (Some items) [1; 2] demo_state =
      (inr [1; 2], s') ∧
    heap s' = heap demo_state ∧
    graphs s' = graphs demo_state ∧
    tensor_idx s' = tensor_idx demo_state + length (given_arrays items) ∧
    feeds s' =
      feeds demo_state ++
      imap (λ i a, (FArray a,
                    FName (demo_tensor_name (tensor_idx demo_state + i))))
           (given_arrays items).
Proof.
  intros items. apply handle_givens_without_tensors.
  intros a t Hin. subst items. demo_elems.
Defined.

(** ** The update path *)

Lemma feed_fold_feeds (f : string * PyValue → FeedArg * FeedArg) kvs s :
  foldM (λ _ kv, FeedTensor (f kv).1 (f kv).2) tt kvs s =
  (inr tt, mkState (heap s) (CURRENT_GRAPH_IDX s) (graphs s)
                   (feeds s ++ map f kvs) (operator_idx s) (tensor_idx s)).
Proof.
  revert s. induction kvs as [|kv kvs IH]; intros s; simpl.
  - rewrite app_nil_r. by destruct s.
  - unfold bind at 1. simpl. rewrite IH. simpl.
    rewrite <- app_assoc. by destruct (f kv).
Qed.

Lemma update_fold_state operator_name_of ty extra g tuples s :
  foldM (update_step operator_name_of ty extra) g tuples s =
  (inr (extend_u_target g
          (update_targets operator_name_of ty extra (operator_idx s) tuples)),
   mkState (heap s) (CURRENT_GRAPH_IDX s) (graphs s) (feeds s)
           (operator_idx s + length tuples) (tensor_idx s)).
Proof.
  revert g s. induction tuples as [|tuple tuples IH]; intros g s; simpl.
  - unfold ret, extend_u_target. rewrite app_nil_r, Nat.add_0_r.
    by destruct g, s.
  - unfold bind at 1. simpl. rewrite IH. simpl.
    unfold extend_u_target. simpl. rewrite <- app_assoc. simpl.
    by replace (S (operator_idx s + length tuples))
         with (operator_idx s + S (length tuples)) by lia.
Qed.

Section update_runs.
Variable operator_name_of : nat → string.
Variable env : Ambient.

(** The update injector, step by step: the hyper-parameters are fed
    first; then the parallel arguments are computed, which may fail; then
    one target per tuple is added. *)
Lemma GraphDef_Update_cases g u s :
  let prefix := name g +:+ "_" in
  let extra := dict_set "domain" (VStr prefix) (_extra_kwargs u) in
  let s1 := mkState (heap s) (CURRENT_GRAPH_IDX s) (graphs s)
                    (feeds s ++ hyper_feeds prefix u)
                    (operator_idx s) (tensor_idx s) in
  GraphDef_Update operator_name_of env g (Some u) s =
    match (if Is_Init (mpi env) then parallel_arguments env else inr []) with
    | inl e => (inl e, s1)
    | inr pargs =>
        (inr (mkGraphDef (name g) (op g) (target g) (g_target g)
                (u_target g ++
                 update_targets operator_name_of (_type u) extra
                                (operator_idx s) (_tuples u))
                (arg g ++ make_arguments pargs)
                (device_option g) (debug_mode g) (share_grads g),
              Some (mkUpdater prefix extra (_hyper_params u) (_tuples u)
                              (_type u))),
         mkState (heap s) (CURRENT_GRAPH_IDX s) (graphs s)
                 (feeds s ++ hyper_feeds prefix u)
                 (operator_idx s + length (_tuples u)) (tensor_idx s))
    end.
Proof.
  intros prefix extra s1. unfold GraphDef_Update. fold prefix. fold extra.
  pose proof (feed_fold_feeds
                (λ kv, (FName (prefix +:+ kv.1),
                        FArray (np_array_float32 [kv.2])))
                (_hyper_params u) s) as Hfeed.
  simpl in Hfeed. unfold bind at 1. rewrite Hfeed.
  fold (hyper_feeds prefix u). fold s1.
  destruct (Is_Init (mpi env)).
  - unfold bind at 1. unfold bind at 1, lift.
    destruct (parallel_arguments env) as [e|pargs]; [done|].
    unfold ret at 1. unfold bind at 1. rewrite update_fold_state. done.
  - unfold bind at 1. unfold ret at 1.
    unfold bind at 1. rewrite update_fold_state. simpl.
    rewrite app_nil_r. by destruct g.
Qed.
End update_runs.

Section update_function.
Variable operator_name_of : nat → string.
Variable tensor_name_of : nat → string.
Variable Make :
  list OperatorDef → list string → list OperatorDef * list OperatorDef.
Variable env : Ambient.

Lemma handle_givens_feeds givens forward_ops s :
  ∃ s', handle_givens tensor_name_of givens forward_ops s =
          (inr (match givens with
                | None => forward_ops
                | Some items =>
                    dict_values (external_input_exprs_of items []) ++
                    forward_ops
                end), s') ∧
        heap s' = match givens with
                  | None => heap s
                  | Some items =>
                      rewrite_ops (name_dict_of items []) forward_ops (heap s)
                  end ∧
        graphs s' = graphs s ∧
        CURRENT_GRAPH_IDX s' = CURRENT_GRAPH_IDX s ∧
        operator_idx s' = operator_idx s ∧
        feeds s' = feeds s ++ given_feeds tensor_name_of (tensor_idx s) givens.
Proof.
  destruct givens as [items|]; simpl.
  2:{ exists s. by rewrite app_nil_r. }
  destruct (givens_fold_feeds tensor_name_of items ([], []) s)
    as (s1 & Hrun & Hh & Hg & Hi & Ho & _ & Hf).
  unfold bind at 1. rewrite Hrun. simpl.
  eexists. split; [reflexivity|]. simpl. by rewrite Hh.
Qed.

(** A compilation for an updater alone, with a device the code supports:
    the state before the metadata is injected, and the outcome of the
    injection. *)
Lemma function_update_cases inputs outputs givens u s :
  as_list outputs = [] → device_supported env →
  let prefix := ("Graph_" +:+ pretty (CURRENT_GRAPH_IDX s)) +:+ "_" in
  let extra := dict_set "domain" (VStr prefix) (_extra_kwargs u) in
  ∃ s1 ops d,
    heap s1 = heap s ∧ graphs s1 = graphs s ∧
    CURRENT_GRAPH_IDX s1 = S (CURRENT_GRAPH_IDX s) ∧
    operator_idx s1 = operator_idx s ∧
    feeds s1 =
      feeds s ++ given_feeds tensor_name_of (tensor_idx s) givens ++
      hyper_feeds prefix u ∧
    function operator_name_of tensor_name_of Make env
             inputs outputs givens (Some u) s =
      match (if Is_Init (mpi env) then parallel_arguments env else inr [])
      with
      | inl e => (inl e, s1)
      | inr pargs =>
          let g := mkGraphDef ("Graph_" +:+ pretty (CURRENT_GRAPH_IDX s)) ops
                     [] []
                     (update_targets operator_name_of (_type u) extra
                                     (operator_idx s) (_tuples u))
                     (make_arguments pargs) d
                     (opt_debug_mode (option_ env))
                     (opt_share_grads (option_ env)) in
          (inr (mkCallable (name g) (as_list inputs) [],
                Some (mkUpdater prefix extra (_hyper_params u) (_tuples u)
                                (_type u))),
           mkState (heap s1) (CURRENT_GRAPH_IDX s1) (graphs s1 ++ [g])
                   (feeds s1) (operator_idx s + length (_tuples u))
                   (tensor_idx s1))
      end.
Proof.
  intros Hout Hdev prefix extra. unfold function. rewrite Hout. simpl.
  unfold bind at 1. simpl.
  unfold bind at 1. rewrite deepcopy_run. simpl.
  set (s0 := with_heap _ _).
  destruct (handle_givens_feeds givens [] s0)
    as (s2 & Hrun & Hh & Hg & Hi & Ho & Hf).
  unfold bind at 1. rewrite Hrun.
  unfold bind at 1, get_state at 1.
  unfold bind at 1, inject.
  rewrite bool_decide_false by (simpl; lia).
  rewrite bool_decide_true by (by eexists).
  unfold bind at 1, lift.
  match goal with |- context [GraphDef_Device env ?g0] =>
    rewrite (GraphDef_Device_supported env g0 Hdev) end.
  rewrite GraphDef_Update_cases. simpl name.
  fold prefix. fold extra.
  assert (heap s2 = heap s) as Hh'.
  { rewrite Hh. by destruct givens. }
  eexists (mkState (heap s2) (CURRENT_GRAPH_IDX s2) (graphs s2)
                   (feeds s2 ++ hyper_feeds prefix u) (operator_idx s2)
                   (tensor_idx s2)), _, _.
  simpl. split; [done|]. split; [done|]. split; [done|]. split; [done|].
  split; [by rewrite Hf, <- app_assoc|].
  destruct (if Is_Init (mpi env) then parallel_arguments env else inr [])
    as [e|pargs]; [done|].
  unfold CreateGraph, ret. simpl. rewrite Ho. reflexivity.
Qed.
End update_function.

Lemma parallel_ready_arguments env :
  parallel_ready env →
  ∃ pargs,
    (if Is_Init (mpi env) then parallel_arguments env else inr []) = inr pargs.
Proof.
  intros Hready. destruct (Is_Init (mpi env)) eqn:Hinit; [|by eexists].
  unfold parallel_ready, parallel_arguments in *. specialize (Hready Hinit).
  destruct (AllowParallel (mpi env)) as [idx group]. simpl in Hready.
  destruct (decide (idx ≠ (-1)%Z)) as [Hidx|Hidx]; [|by eexists].
  destruct group as [|root group]; [by destruct (Hready Hidx)|].
  destruct (CreateGroup (mpi env) root (root :: group)). by eexists.
Qed.

Lemma dict_set_set {K V} `{EqDecision K} (k : K) (v1 v2 : V) (d : dict K V) :
  dict_set k v2 (dict_set k v1 d) = dict_set k v2 d.
Proof.
  induction d as [|[k' v'] d IH]; simpl.
  - by rewrite decide_True.
  - destruct (decide (k = k')) as [->|Hne]; simpl.
    + by rewrite decide_True.
    + rewrite decide_False by done. by rewrite IH.
Qed.

Lemma dict_set_keys_value {K V} `{EqDecision K} (k : K) (v1 v2 : V)
    (d : dict K V) :
  dict_keys (dict_set k v1 d) = dict_keys (dict_set k v2 d).
Proof.
  unfold dict_keys. induction d as [|[k' v'] d IH]; simpl; [done|].
  destruct (decide (k = k')); simpl; [done|]. f_equal. exact IH.
Qed.

(** X11: an update-only compilation feeds every hyper-parameter of the
    updater, in order, as a one-element float32 array under the name
    [Graph_<n>_<hyper-parameter>], after the feeds of the givens stage.
    It hands the updater back with [Graph_<n>_] as its prefix and as the
    [domain] among its extra arguments, and draws one operator name per
    tuple. *)
Theorem function_updater_feeds operator_name_of tensor_name_of Make env
    inputs outputs givens (u : Updater) s :
  as_list outputs = [] → device_supported env → parallel_ready env →
  let prefix := ("Graph_" +:+ pretty (CURRENT_GRAPH_IDX s)) +:+ "_" in
  ∃ c s',
    function operator_name_of tensor_name_of Make env
             inputs outputs givens (Some u) s =
      (inr (c, Some (mkUpdater prefix
                       (dict_set "domain" (VStr prefix) (_extra_kwargs u))
                       (_hyper_params u) (_tuples u) (_type u))), s') ∧
    feeds s' =
      feeds s ++ given_feeds tensor_name_of (tensor_idx s) givens ++
      map (λ kv, (FName (prefix +:+ kv.1), FArray (NdArray "float32" [kv.2])))
          (_hyper_params u) ∧
    operator_idx s' = operator_idx s + length (_tuples u).
Proof.
  intros Hout Hdev Hready prefix.
  destruct (function_update_cases operator_name_of tensor_name_of Make env
              inputs outputs givens u s Hout Hdev)
    as (s1 & ops & d & _ & _ & _ & _ & Hf & Hrun).
  destruct (parallel_ready_arguments env Hready) as [pargs Hp].
  rewrite Hp in Hrun. rewrite Hrun.
  eexists _, _. split; [reflexivity|]. simpl. by rewrite Hf.
Qed.

Lemma function_updater_feeds_witness :
  let prefix := ("Graph_" +:+ pretty (CURRENT_GRAPH_IDX demo_state)) +:+ "_" in
  ∃ c s',
    function demo_operator_name demo_tensor_name demo_Make demo_env
             ArgNone ArgNone (Some [(demo_a, GArray demo_array)])
             (Some demo_updater) demo_state =
      (inr (c, Some (mkUpdater prefix
                       (dict_set "domain" (VStr prefix)
                                 (_extra_kwargs demo_updater))
                       (_hyper_params demo_updater) (_tuples demo_updater)
                       (_type demo_updater))), s') ∧
    feeds s' =
      feeds demo_state ++
      given_feeds demo_tensor_name (tensor_idx demo_state)
                  (Some [(demo_a, GArray demo_array)]) ++
      map (λ kv, (FName (prefix +:+ kv.1), FArray (NdArray "float32" [kv.2])))
          (_hyper_params demo_updater) ∧
    operator_idx s' = operator_idx demo_state + length (_tuples demo_updater).
Proof.
  apply function_updater_feeds.
  - done.
  - unfold device_supported. simpl. apply list_elem_of_here.
  - unfold parallel_ready. simpl. done.
Defined.

(** X12: an updater can be compiled again.  The second compilation
    overwrites the prefix and the [domain] argument that the first left in
    the updater with those of the second graph; the extra arguments get no
    second [domain] entry, and the hyper-parameters, the tuples and the
    type of the updater are never changed. *)
Theorem function_updater_reuse operator_name_of tensor_name_of Make env
    inputs outputs givens (u : Updater) s :
  as_list outputs = [] → device_supported env → parallel_ready env →
  ∃ c1 u1 s1 c2 u2 s2,
    function operator_name_of tensor_name_of Make env
             inputs outputs givens (Some u) s = (inr (c1, Some u1), s1) ∧
    function operator_name_of tensor_name_of Make env
             inputs outputs givens (Some u1) s1 = (inr (c2, Some u2), s2) ∧
    _prefix u2 = ("Graph_" +:+ pretty (S (CURRENT_GRAPH_IDX s))) +:+ "_" ∧
    _extra_kwargs u2 =
      dict_set "domain" (VStr (_prefix u2)) (_extra_kwargs u) ∧
    dict_keys (_extra_kwargs u2) = dict_keys (_extra_kwargs u1) ∧
    _hyper_params u2 = _hyper_params u ∧
    _tuples u2 = _tuples u ∧
    _type u2 = _type u.
Proof.
  intros Hout Hdev Hready.
  destruct (parallel_ready_arguments env Hready) as [pargs Hp].
  destruct (function_update_cases operator_name_of tensor_name_of Make env
              inputs outputs givens u s Hout Hdev)
    as (s1 & ops1 & d1 & _ & _ & Hi1 & _ & _ & Hrun1).
  rewrite Hp in Hrun1. cbv zeta in Hrun1.
  match type of Hrun1 with _ = (inr (?c, Some ?u1), ?s1') =>
    destruct (function_update_cases operator_name_of tensor_name_of Make env
                inputs outputs givens u1 s1' Hout Hdev)
      as (s2 & ops2 & d2 & _ & _ & _ & _ & _ & Hrun2)
  end.
  rewrite Hp in Hrun2. cbv zeta in Hrun2. simpl in Hrun2.
  eexists _, _, _, _, _, _. split; [exact Hrun1|]. split; [exact Hrun2|].
  simpl. rewrite Hi1, dict_set_set. split; [done|]. split; [done|].
  split; [apply dict_set_keys_value|done].
Qed.

Lemma function_updater_reuse_witness :
  ∃ c1 u1 s1 c2 u2 s2,
    function demo_operator_name demo_tensor_name demo_Make demo_env
             ArgNone ArgNone None (Some demo_updater) demo_state =
      (inr (c1, Some u1), s1) ∧
    function demo_operator_name demo_tensor_name demo_Make demo_env
             ArgNone ArgNone None (Some u1) s1 = (inr (c2, Some u2), s2) ∧
    _prefix u2 =
      ("Graph_" +:+ pretty (S (CURRENT_GRAPH_IDX demo_state))) +:+ "_" ∧
    _extra_kwargs u2 =
      dict_set "domain" (VStr (_prefix u2)) (_extra_kwargs demo_updater) ∧
    dict_keys (_extra_kwargs u2) = dict_keys (_extra_kwargs u1) ∧
    _hyper_params u2 = _hyper_params demo_updater ∧
    _tuples u2 = _tuples demo_updater ∧
    _type u2 = _type demo_updater.
Proof.
  apply function_updater_reuse.
  - done.
  - unfold device_supported. simpl. apply list_elem_of_here.
  - unfold parallel_ready. simpl. done.
Defined.

(** X13: when MPI is initialised and the rank is allowed in a group with
    a first member, an update-only compilation attaches four arguments to
    the graph, in this order: [parallel_mode], [comm] and [group] as
    [CreateGroup] returns them for the first member as root and the whole
    group as members, and [root], the first member. *)
Theorem function_parallel_arguments operator_name_of tensor_name_of Make env
    inputs outputs givens (u : Updater) s idx root rest :
  as_list outputs = [] → device_supported env →
  Is_Init (mpi env) = true →
  AllowParallel (mpi env) = (idx, root :: rest) → idx ≠ (-1)%Z →
  ∃ c u' s' g,
    function operator_name_of tensor_name_of Make env
             inputs outputs givens (Some u) s = (inr (c, Some u'), s') ∧
    compiled_graph s' = Some g ∧
    arg g =
      [ MakeArgument "parallel_mode" (GetParallelMode (mpi env));
        MakeArgument "comm" (CreateGroup (mpi env) root (root :: rest)).1;
        MakeArgument "group" (CreateGroup (mpi env) root (root :: rest)).2;
        MakeArgument "root" (VInt root) ].
Proof.
  intros Hout Hdev Hinit Hallow Hidx.
  destruct (function_update_cases operator_name_of tensor_name_of Make env
              inputs outputs givens u s Hout Hdev)
    as (s1 & ops & d & _ & _ & _ & _ & _ & Hrun).
  rewrite Hinit in Hrun. unfold parallel_arguments in Hrun.
  rewrite Hallow in Hrun. rewrite decide_True in Hrun by done.
  destruct (CreateGroup (mpi env) root (root :: rest)) as [comm grp] eqn:Hgrp.
  cbv zeta in Hrun.
  eexists _, _, _, _. split; [exact Hrun|].
  split; [unfold compiled_graph; simpl; apply last_snoc|]. reflexivity.
Qed.

Lemma function_parallel_arguments_witness :
  ∃ c u' s' g,
    function demo_operator_name demo_tensor_name demo_Make demo_env_mpi
             ArgNone ArgNone None (Some demo_updater) demo_state =
      (inr (c, Some u'), s') ∧
    compiled_graph s' = Some g ∧
    arg g =
      [ MakeArgument "parallel_mode" (GetParallelMode (mpi demo_env_mpi));
        MakeArgument "comm"
          (CreateGroup (mpi demo_env_mpi) 2%Z (2%Z :: [5%Z])).1;
        MakeArgument "group"
          (CreateGroup (mpi demo_env_mpi) 2%Z (2%Z :: [5%Z])).2;
        MakeArgument "root" (VInt 2%Z) ].
Proof.
  apply (function_parallel_arguments demo_operator_name demo_tensor_name
           demo_Make demo_env_mpi ArgNone ArgNone None demo_updater
           demo_state 0%Z 2%Z [5%Z]).
  - done.
  - unfold device_supported. simpl. apply list_elem_of_here.
  - reflexivity.
  - reflexivity.
  - lia.
Defined.

(** X14: when MPI is not initialised, or no group allows the rank
    (index -1), an update-only compilation succeeds and registers a graph
    without any argument (so without a [phase] either), without targets
    and without gradient targets, holding one update target per tuple of
    the updater. *)
Theorem function_update_without_parallel operator_name_of tensor_name_of
    Make env inputs outputs givens (u : Updater) s :
  as_list outputs = [] → device_supported env →
  Is_Init (mpi env) = false ∨ (AllowParallel (mpi env)).1 = (-1)%Z →
  ∃ c u' s' g,
    function operator_name_of tensor_name_of Make env
             inputs outputs givens (Some u) s = (inr (c, Some u'), s') ∧
    compiled_graph s' = Some g ∧
    arg g = [] ∧ target g = [] ∧ g_target g = [] ∧
    length (u_target g) = length (_tuples u).
Proof.
  intros Hout Hdev Hmpi.
  destruct (function_update_cases operator_name_of tensor_name_of Make env
              inputs outputs givens u s Hout Hdev)
    as (s1 & ops & d & _ & _ & _ & _ & _ & Hrun).
  assert ((if Is_Init (mpi env) then parallel_arguments env else inr []) =
          inr []) as Hp.
  { destruct Hmpi as [->|Hidx]; [done|].
    destruct (Is_Init (mpi env)); [|done]. unfold parallel_arguments.
    destruct (AllowParallel (mpi env)) as [idx group]. simpl in Hidx.
    by rewrite decide_False by (intros Hne; by apply Hne). }
  rewrite Hp in Hrun. cbv zeta in Hrun.
  eexists _, _, _, _. split; [exact Hrun|].
  split; [unfold compiled_graph; simpl; apply last_snoc|]. simpl.
  repeat split. apply update_targets_length.
Qed.

Lemma function_update_without_parallel_witness :
  ∃ c u' s' g,
    function demo_operator_name demo_tensor_name demo_Make demo_env
             ArgNone ArgNone None (Some demo_updater) demo_state =
      (inr (c, Some u'), s') ∧
    compiled_graph s' = Some g ∧
    arg g = [] ∧ target g = [] ∧ g_target g = [] ∧
    length (u_target g) = length (_tuples demo_updater).
Proof.
  apply function_update_without_parallel.
  - done.
  - unfold device_supported. simpl. apply list_elem_of_here.
  - left. reflexivity.
Defined.

(** X15: when MPI is initialised and the rank is allowed (index other
    than -1) but the group is empty, an update-only compilation fails with
    [IndexError] at [group[0]].  By then the graph index is consumed and
    the givens' arrays and the updater's hyper-parameters are fed; no
    graph is registered and no operator name is drawn. *)
Theorem function_empty_group operator_name_of tensor_name_of Make env
    inputs outputs givens (u : Updater) s idx :
  as_list outputs = [] → device_supported env →
  Is_Init (mpi env) = true →
  AllowParallel (mpi env) = (idx, []) → idx ≠ (-1)%Z →
  ∃ s',
    function operator_name_of tensor_name_of Make env
             inputs outputs givens (Some u) s = (inl IndexError, s') ∧
    graphs s' = graphs s ∧
    CURRENT_GRAPH_IDX s' = S (CURRENT_GRAPH_IDX s) ∧
    operator_idx s' = operator_idx s ∧
    feeds s' =
      feeds s ++ given_feeds tensor_name_of (tensor_idx s) givens ++
      hyper_feeds (("Graph_" +:+ pretty (CURRENT_GRAPH_IDX s)) +:+ "_") u.
Proof.
  intros Hout Hdev Hinit Hallow Hidx.
  destruct (function_update_cases operator_name_of tensor_name_of Make env
              inputs outputs givens u s Hout Hdev)
    as (s1 & ops & d & _ & Hg & Hi & Ho & Hf & Hrun).
  rewrite Hinit in Hrun. unfold parallel_arguments in Hrun.
  rewrite Hallow in Hrun. rewrite decide_True in Hrun by done.
  exists s1. done.
Qed.

Lemma function_empty_group_witness :
  ∃ s',
    function demo_operator_name demo_tensor_name demo_Make demo_env_no_root
             ArgNone ArgNone None (Some demo_updater) demo_state =
      (inl IndexError, s') ∧
    graphs s' = graphs demo_state ∧
    CURRENT_GRAPH_IDX s' = S (CURRENT_GRAPH_IDX demo_state) ∧
    operator_idx s' = operator_idx demo_state ∧
    feeds s' =
      feeds demo_state ++
      given_feeds demo_tensor_name (tensor_idx demo_state) None ++
      hyper_feeds (("Graph_" +:+ pretty (CURRENT_GRAPH_IDX demo_state))
                   +:+ "_") demo_updater.
Proof.
  apply (function_empty_group demo_operator_name demo_tensor_name demo_Make
           demo_env_no_root ArgNone ArgNone None demo_updater demo_state
           0%Z).
  - done.
  - unfold device_supported. simpl. apply list_elem_of_here.
  - reflexivity.
  - reflexivity.
  - lia.
Defined.

(** ** Outputs that share an operator index *)

Lemma dict_get_update_absent {K V} `{EqDecision K} (d e : dict K V) k :
  k ∉ dict_keys e → dict_get k (dict_update d e) = dict_get k d.
Proof.
  unfold dict_update, dict_keys. revert d.
  induction e as [|[k0 v0] e IH]; intros d; simpl; [done|].
  rewrite not_elem_of_cons. intros [Hne Hk]. rewrite IH by done.
  by rewrite dict_get_set_ne.
Qed.

Lemma merged_absent outputs d k :
  (∀ t, t ∈ outputs → k ∉ dict_keys (expressions t)) →
  dict_get k (merged outputs d) = dict_get k d.
Proof.
  unfold merged. revert d.
  induction outputs as [|t ts IH]; intros d Habs; simpl; [done|].
  rewrite IH by (intros t' Hin; apply Habs; by apply list_elem_of_further).
  apply dict_get_update_absent, Habs, list_elem_of_here.
Qed.

Lemma merged_last_wins before t after d k l :
  NoDup (dict_keys (expressions t)) →
  dict_get k (expressions t) = Some l →
  (∀ t', t' ∈ after → k ∉ dict_keys (expressions t')) →
  dict_get k (merged (before ++ t :: after) d) = Some l.
Proof.
  intros Hnd Hget Habs. unfold merged. rewrite fold_left_app. simpl.
  fold (merged before d).
  fold (merged after (dict_update (merged before d) (expressions t))).
  rewrite merged_absent by done. rewrite dict_get_update by done.
  by rewrite Hget.
Qed.

Lemma dict_elem_get {K V} `{EqDecision K} (d : dict K V) k v :
  NoDup (dict_keys d) → (k, v) ∈ d → dict_get k d = Some v.
Proof.
  unfold dict_keys. induction d as [|[k0 v0] d IH]; simpl.
  - intros _ Hin. by apply elem_of_nil in Hin.
  - rewrite NoDup_cons. intros [Hk Hnd] Hin.
    apply elem_of_cons in Hin as [Heq|Hin].
    + simplify_eq. by rewrite decide_True.
    + rewrite decide_False; [by apply IH|].
      intros ->. apply Hk. apply list_elem_of_fmap. by exists (k0, v).
Qed.

Lemma last_holder (outputs : list Tensor) (k : nat) :
  (∃ t, t ∈ outputs ∧ k ∈ dict_keys (expressions t)) →
  ∃ before t after,
    outputs = before ++ t :: after ∧ k ∈ dict_keys (expressions t) ∧
    ∀ t', t' ∈ after → k ∉ dict_keys (expressions t').
Proof.
  induction outputs as [|t0 ts IH]; intros (t & Ht & Hk).
  - by apply elem_of_nil in Ht.
  - destruct (decide (Exists (λ t', k ∈ dict_keys (expressions t')) ts))
      as [Hex|Hno].
    + apply Exists_exists in Hex.
      destruct (IH Hex) as (before & t1 & after & -> & Hk1 & Hafter).
      by exists (t0 :: before), t1, after.
    + exists [], t0, ts. split; [done|].
      assert (∀ t', t' ∈ ts → k ∉ dict_keys (expressions t')) as Hafter.
      { intros t' Ht' Hk'. apply Hno. apply Exists_exists. eauto. }
      split; [|done].
      apply elem_of_cons in Ht as [->|Ht]; [done|]. by destruct (Hafter t Ht).
Qed.

Lemma merged_elem_last outputs k l :
  (∀ t, t ∈ outputs → NoDup (dict_keys (expressions t))) →
  (k, l) ∈ merged outputs [] ↔
  ∃ before t after,
    outputs = before ++ t :: after ∧ (k, l) ∈ expressions t ∧
    ∀ t', t' ∈ after → k ∉ dict_keys (expressions t').
Proof.
  intros Hnd.
  assert (NoDup (dict_keys (merged outputs []))) as Hndm.
  { apply merged_NoDup. apply NoDup_nil_2. }
  assert (∀ before t after l0,
            outputs = before ++ t :: after → (k, l0) ∈ expressions t →
            (∀ t', t' ∈ after → k ∉ dict_keys (expressions t')) →
            dict_get k (merged outputs []) = Some l0) as Hlast.
  { intros before t after l0 -> Hin Hafter.
    assert (NoDup (dict_keys (expressions t))) as Hndt.
    { apply Hnd. apply elem_of_app. right. apply list_elem_of_here. }
    apply merged_last_wins; [done| |done]. by apply dict_elem_get. }
  split.
  - intros Hin.
    assert (k ∈ dict_keys (merged outputs [])) as Hk.
    { apply list_elem_of_fmap. by exists (k, l). }
    apply merged_keys in Hk as [Hk|Hk]; [by apply elem_of_nil in Hk|].
    destruct (last_holder outputs k Hk)
      as (before & t & after & Heq & Hkt & Hafter).
    apply list_elem_of_fmap in Hkt as ([k' l0] & Hk' & Hin0). simpl in Hk'.
    subst k'. exists before, t, after. split; [done|]. split; [|done].
    pose proof (Hlast before t after l0 Heq Hin0 Hafter) as Hget.
    apply dict_elem_get in Hin; [|done].
    assert (l = l0) as -> by congruence. done.
  - intros (before & t & after & Heq & Hin & Hafter).
    apply dict_get_Some_elem. by eapply Hlast.
Qed.

(** X16: when several outputs hold an operator under the same operator
    index, the compiled graph takes the operator of the last such output
    in the list, and takes no other operator for that index: the kept
    entries are exactly the entries of an output after which no output has
    the same index, in strictly increasing order of the index.  Without
    givens, the forward operators are the heap contents of the kept
    entries, handed to the gradient maker if some output asks for
    gradients. *)
Theorem function_shared_index_last_output operator_name_of tensor_name_of
    Make env inputs outputs s :
  0 < length (as_list outputs) → device_supported env →
  (∀ t k l, t ∈ as_list outputs → (k, l) ∈ expressions t →
            l < length (heap s)) →
  (∀ t, t ∈ as_list outputs → NoDup (dict_keys (expressions t))) →
  ∃ c s' g items,
    function operator_name_of tensor_name_of Make env
             inputs outputs None None s = (inr (c, None), s') ∧
    compiled_graph s' = Some g ∧
    op g = with_grads Make (as_list outputs)
                      (map (λ kl, deref (heap s) kl.2) items) ∧
    (∀ i j x y, items !! i = Some x → items !! j = Some y → i < j →
                x.1 < y.1) ∧
    (∀ k l, (k, l) ∈ items ↔
            ∃ before t after,
              as_list outputs = before ++ t :: after ∧
              (k, l) ∈ expressions t ∧
              ∀ t', t' ∈ after → k ∉ dict_keys (expressions t')).
Proof.
  intros Hlen Hdev Hvalid Hnd.
  destruct (function_outputs_graph operator_name_of tensor_name_of Make env
              inputs outputs None s Hlen Hdev)
    as (s' & g & Hrun & Hg & _).
  destruct (function_graph _ _ _ _ _ _ _ _ _ _ _ _ Hrun)
    as (g' & Hg' & _ & Hop).
  rewrite Hg in Hg'. apply app_inj_tail in Hg' as [_ <-].
  rewrite forward_values_valid in Hop.
  2:{ split; [exact Hvalid|]. intros items a t0 k0 l0 Hgiv. done. }
  eexists _, s', g, (sorted_items (merged (as_list outputs) [])).
  split; [exact Hrun|].
  split; [unfold compiled_graph; by rewrite Hg, last_snoc|].
  split; [|split].
  - unfold compiled_forward, merged_refs, dict_values in Hop.
    change (map ?f (?g <$> ?l)) with (f <$> (g <$> l)) in Hop.
    rewrite <- list_fmap_compose in Hop. exact Hop.
  - intros i j x y. apply sorted_items_strict.
    apply merged_NoDup. apply NoDup_nil_2.
  - intros k l. rewrite sorted_items_Permutation.
    by apply merged_elem_last.
Qed.

Lemma function_shared_index_last_output_witness :
  let p := mkTensor "p" [(1, 0)] [] [] in
  let q := mkTensor "q" [(0, 2); (1, 1)] [] [] in
  ∃ c s' g items,
    function demo_operator_name demo_tensor_name demo_Make demo_env
             ArgNone (ArgList [p; q]) None None demo_state =
      (inr (c, None), s') ∧
    compiled_graph s' = Some g ∧
    op g = with_grads demo_Make (as_list (ArgList [p; q]))
                      (map (λ kl, deref (heap demo_state) kl.2) items) ∧
    (∀ i j x y, items !! i = Some x → items !! j = Some y → i < j →
                x.1 < y.1) ∧
    (∀ k l, (k, l) ∈ items ↔
            ∃ before t after,
              as_list (ArgList [p; q]) = before ++ t :: after ∧
              (k, l) ∈ expressions t ∧
              ∀ t', t' ∈ after → k ∉ dict_keys (expressions t')).
Proof.
  intros p q.
  apply (function_shared_index_last_output demo_operator_name
           demo_tensor_name demo_Make demo_env ArgNone (ArgList [p; q])
           demo_state).
  - simpl. lia.
  - unfold device_supported. simpl. apply list_elem_of_here.
  - intros t k l Ht Hin. unfold p, q in *. demo_elems; lia.
  - intros t Ht. unfold p, q in *. unfold dict_keys. demo_elems.
    + apply NoDup_singleton.
    + apply NoDup_cons. split; [|apply NoDup_singleton].
      intros H. inversion H as [|? ? ? H']. inversion H'.
Defined.

(** ** The inputs *)

Section inputs.
Variables (operator_name_of tensor_name_of : nat → string).
Variable Make : list OperatorDef → list string →
                list OperatorDef * list OperatorDef.
Variable env : Ambient.

Lemma bind_same_but_inputs {A} i1 i2 (m : M A)
    (k1 k2 : A → M (Callable * option Updater)) s :
  (∀ a s', same_but_inputs i1 i2 (k1 a s') (k2 a s')) →
  same_but_inputs i1 i2 (bind m k1 s) (bind m k2 s).
Proof.
  intros Hk. unfold bind. destruct (m s) as [[e|a] s']; [by split|apply Hk].
Qed.

Lemma function_same_but_inputs inputs1 inputs2 outputs givens updater s :
  same_but_inputs (as_list inputs1) (as_list inputs2)
    (function operator_name_of tensor_name_of Make env
              inputs1 outputs givens updater s)
    (function operator_name_of tensor_name_of Make env
              inputs2 outputs givens updater s).
Proof.
  unfold function.
  destruct (bool_decide (0 < length (as_list outputs)) &&
            bool_decide (is_Some updater)); [by split|].
  apply bind_same_but_inputs. intros idx s1.
  apply bind_same_but_inputs. intros cs s2.
  apply bind_same_but_inputs. intros fwd s3.
  apply bind_same_but_inputs. intros s4 s5.
  destruct (if existing_grads _ then _ else _) as [fwd' grads].
  apply bind_same_but_inputs. intros [g u] s6.
  apply bind_same_but_inputs. intros [] s7.
  by split.
Qed.
End inputs.

(** X17: the [inputs] argument is only recorded in the returned callable.
    Compiling with other inputs leaves the interpreter in the same state
    (same registered graph, same feeds, same counters) and fails with the
    same error if it fails; on success the two callables run the same
    graph with the same outputs, each with its own normalised inputs, and
    the updater is handed back the same. *)
Theorem function_inputs_only_recorded operator_name_of tensor_name_of Make
    env inputs1 inputs2 outputs givens updater s :
  let r1 := function operator_name_of tensor_name_of Make env
                     inputs1 outputs givens updater s in
  let r2 := function operator_name_of tensor_name_of Make env
                     inputs2 outputs givens updater s in
  r1.2 = r2.2 ∧
  match r1.1, r2.1 with
  | inl e1, inl e2 => e1 = e2
  | inr (c1, u1), inr (c2, u2) =>
      run_graph c1 = run_graph c2 ∧ run_outputs c1 = run_outputs c2 ∧
      run_inputs c1 = as_list inputs1 ∧ run_inputs c2 = as_list inputs2 ∧
      u1 = u2
  | _, _ => False
  end.
Proof.
  exact (function_same_but_inputs operator_name_of tensor_name_of Make env
           inputs1 inputs2 outputs givens updater s).
Qed.

(** ** The merged forward operators *)

Lemma rewritten_NoDup nd h ls :
  NoDup ls →
  rewritten nd h ls = map (λ l, rewrite_input nd (deref h l)) ls.
Proof.
  intros Hnd. unfold rewritten. apply map_ext_in. intros l Hl.
  assert (count_occ Nat.eq_dec ls l = 1) as ->; [|done].
  apply NoDup_ListNoDup in Hnd.
  by apply (proj1 (NoDup_count_occ' Nat.eq_dec _) Hnd).
Qed.

Lemma sorted_items_keys_values (rank : loc → nat) (d : dict nat loc) :
  (∀ k l, (k, l) ∈ d → k = rank l) →
  dict_keys (sorted_items d) = rank <$> dict_values (sorted_items d).
Proof.
  intros Hrank. unfold dict_keys, dict_values.
  rewrite <- list_fmap_compose. apply list_fmap_ext.
  intros i [k l] Hi. simpl. apply Hrank.
  rewrite <- (sorted_items_Permutation d). by eapply list_elem_of_lookup_2.
Qed.

(** C1: let the operator indices be assigned in construction order (the
    index of an operator is its rank in that order, and no two operators
    of the outputs have the same rank), every operator being constructed
    after the producers of its inputs.  A call of [function] for outputs
    then succeeds, and the merged forward operator list it compiles holds
    every operator of the outputs' expressions exactly once, whether the
    expressions overlap or not, in construction order, every operator
    after all operators that produce one of its inputs.  The graph holds
    the contents of these operators (behind the defining operators of the
    replacements and with the input names substituted when there are
    givens), handed to the gradient maker if some output asks for
    gradients. *)
Theorem merged_forward_ops_topological operator_name_of tensor_name_of Make
    env inputs outputs givens (rank : loc → nat) s :
  0 < length (as_list outputs) → device_supported env →
  refs_valid (heap s) (as_list outputs) givens →
  (∀ t k l, t ∈ as_list outputs → (k, l) ∈ expressions t → k = rank l) →
  (∀ t1 t2 k1 l1 k2 l2,
     t1 ∈ as_list outputs → t2 ∈ as_list outputs →
     (k1, l1) ∈ expressions t1 → (k2, l2) ∈ expressions t2 →
     rank l1 = rank l2 → l1 = l2) →
  (∀ t1 t2 k1 l1 k2 l2 n,
     t1 ∈ as_list outputs → t2 ∈ as_list outputs →
     (k1, l1) ∈ expressions t1 → (k2, l2) ∈ expressions t2 →
     n ∈ output (deref (heap s) l1) → n ∈ input (deref (heap s) l2) →
     rank l1 < rank l2) →
  ∃ c s' g refs,
    function operator_name_of tensor_name_of Make env
             inputs outputs givens None s = (inr (c, None), s') ∧
    compiled_graph s' = Some g ∧
    NoDup refs ∧
    (∀ l, l ∈ refs ↔
          ∃ t k, t ∈ as_list outputs ∧ (k, l) ∈ expressions t) ∧
    (∀ i j li lj, refs !! i = Some li → refs !! j = Some lj → i < j →
                  rank li < rank lj) ∧
    (∀ i j li lj n,
       refs !! i = Some li → refs !! j = Some lj →
       n ∈ output (deref (heap s) li) → n ∈ input (deref (heap s) lj) →
       i < j) ∧
    op g =
      with_grads Make (as_list outputs)
        match givens with
        | None => map (deref (heap s)) refs
        | Some items =>
            map (deref (heap s))
                (dict_values (external_input_exprs_of items [])) ++
            map (λ l, rewrite_input (name_dict_of items []) (deref (heap s) l))
                refs
        end.
Proof.
  intros Hlen Hdev Hvalid Hrank Hinj Horder.
  destruct (function_outputs_graph operator_name_of tensor_name_of Make env
              inputs outputs givens s Hlen Hdev)
    as (s' & g & Hrun & Hg & _).
  destruct (function_graph _ _ _ _ _ _ _ _ _ _ _ _ Hrun)
    as (g' & Hg' & _ & Hop).
  rewrite Hg in Hg'. apply app_inj_tail in Hg' as [_ <-].
  rewrite forward_values_valid in Hop by done.
  set (d := merged (as_list outputs) []) in *.
  assert (NoDup (dict_keys d)) as Hndk.
  { apply merged_NoDup. apply NoDup_nil_2. }
  assert (∀ k l, (k, l) ∈ d →
                 ∃ t, t ∈ as_list outputs ∧ (k, l) ∈ expressions t) as Hd.
  { intros k l Hin. apply merged_elem in Hin as [Hin|?]; [|done].
    by apply elem_of_nil in Hin. }
  assert (∀ k l, (k, l) ∈ d → k = rank l) as Hdr.
  { intros k l Hin. destruct (Hd k l Hin) as (t & Ht & Hin'). eauto. }
  set (refs := merged_refs (as_list outputs)) in *.
  assert (dict_keys (sorted_items d) = rank <$> refs) as Hkeys.
  { by apply sorted_items_keys_values. }
  assert (NoDup refs) as Hnd.
  { apply (NoDup_fmap_1 rank). rewrite <- Hkeys. unfold dict_keys.
    rewrite sorted_items_Permutation. exact Hndk. }
  assert (∀ l, l ∈ refs ↔
               ∃ t k, t ∈ as_list outputs ∧ (k, l) ∈ expressions t) as Hmem.
  { intros l. unfold refs, merged_refs. rewrite dict_values_elem. split.
    - intros [k Hin]. rewrite sorted_items_Permutation in Hin.
      destruct (Hd k l Hin) as (t & Ht & Hin'). eauto.
    - intros (t & k & Ht & Hin).
      assert (k ∈ dict_keys d) as Hk.
      { apply merged_keys. right. exists t. split; [done|].
        apply list_elem_of_fmap. by exists (k, l). }
      apply list_elem_of_fmap in Hk as ([k' l'] & Hk' & Hin'). simpl in Hk'.
      subst k'. exists k. rewrite sorted_items_Permutation.
      destruct (Hd k l' Hin') as (t' & Ht' & Hin'').
      assert (l' = l) as <-; [|done].
      apply (Hinj t' t k l' k l); [done..|].
      by rewrite <- (Hrank t' k l'), <- (Hrank t k l). }
  assert (∀ i j li lj, refs !! i = Some li → refs !! j = Some lj → i < j →
                       rank li < rank lj) as Hsorted.
  { intros i j li lj Hi Hj Hij.
    unfold refs, merged_refs, dict_values in Hi, Hj.
    apply list_lookup_fmap_Some in Hi as ([ki li'] & Heqi & Hi).
    apply list_lookup_fmap_Some in Hj as ([kj lj'] & Heqj & Hj).
    simpl in *. subst li' lj'.
    pose proof (sorted_items_strict d i j _ _ Hndk Hi Hj Hij) as Hlt.
    simpl in Hlt.
    rewrite (Hdr ki li), (Hdr kj lj) in Hlt; [done| |].
    - rewrite <- (sorted_items_Permutation d). by eapply list_elem_of_lookup_2.
    - rewrite <- (sorted_items_Permutation d). by eapply list_elem_of_lookup_2. }
  eexists _, s', g, refs. split; [exact Hrun|].
  split; [unfold compiled_graph; by rewrite Hg, last_snoc|].
  split; [done|]. split; [done|]. split; [done|]. split.
  - intros i j li lj n Hi Hj Hout Hinp.
    assert (li ∈ refs) as Hli by (by eapply list_elem_of_lookup_2).
    assert (lj ∈ refs) as Hlj by (by eapply list_elem_of_lookup_2).
    apply Hmem in Hli as (t1 & k1 & Ht1 & Hin1).
    apply Hmem in Hlj as (t2 & k2 & Ht2 & Hin2).
    pose proof (Horder t1 t2 k1 li k2 lj n Ht1 Ht2 Hin1 Hin2 Hout Hinp) as Hlt.
    destruct (decide (i < j)) as [|Hge]; [done|].
    destruct (decide (i = j)) as [->|Hne].
    + rewrite Hi in Hj. simplify_eq. lia.
    + assert (j < i) as Hji by lia.
      pose proof (Hsorted j i lj li Hj Hi Hji). lia.
  - rewrite Hop. unfold compiled_forward. fold refs.
    destruct givens as [items|]; [|done].
    by rewrite rewritten_NoDup.
Qed.

Lemma merged_forward_ops_topological_witness :
  ∃ c s' g refs,
    function demo_operator_name demo_tensor_name demo_Make demo_env
             ArgNone (ArgList [demo_y; demo_c]) None None demo_state =
      (inr (c, None), s') ∧
    compiled_graph s' = Some g ∧
    NoDup refs ∧
    (∀ l, l ∈ refs ↔
          ∃ t k, t ∈ as_list (ArgList [demo_y; demo_c]) ∧
                 (k, l) ∈ expressions t) ∧
    (∀ i j li lj, refs !! i = Some li → refs !! j = Some lj → i < j →
                  id li < id lj) ∧
    (∀ i j li lj n,
       refs !! i = Some li → refs !! j = Some lj →
       n ∈ output (deref (heap demo_state) li) →
       n ∈ input (deref (heap demo_state) lj) →
       i < j) ∧
    op g =
      with_grads demo_Make (as_list (ArgList [demo_y; demo_c]))
                 (map (deref (heap demo_state)) refs).
Proof.
  apply (merged_forward_ops_topological demo_operator_name demo_tensor_name
           demo_Make demo_env ArgNone (ArgList [demo_y; demo_c]) None id
           demo_state).
  - simpl. lia.
  - unfold device_supported. simpl. apply list_elem_of_here.
  - split; [|done]. intros t k l Ht Hin. demo_elems; lia.
  - intros t k l Ht Hin. demo_elems; done.
  - intros t1 t2 k1 l1 k2 l2 _ _ _ _ Heq. exact Heq.
  - intros t1 t2 k1 l1 k2 l2 n Ht1 Ht2 H1 H2 Hout Hinp. unfold id.
    demo_elems; try lia; unfold deref in *; simpl in *; invert_elems; done.
Defined.
